(** * encore: progress events and the sqlite-backed key-value store

    A shallow embedding of [encore/events/progress_events.py] and
    [encore/storage/sqlite_store.py], and the properties of the
    specification that concern them.

    Python objects are records; a method is a function in a state-and-error
    monad over the objects it can reach.  An exception leaves the state as
    it was at the point of the raise: nothing is rolled back. *)

From Stdlib Require Import ZArith Ascii String List.
From stdpp Require Import base option list strings gmap.

Local Open Scope string_scope.
Local Open Scope list_scope.
Local Open Scope Z_scope.

(** ** Python values *)

(** Scalar values, as they occur as metadata fields and as keyword
    arguments of [query]. *)
Inductive pyval : Type :=
| VNone
| VBool (b : bool)
| VInt (n : Z)
| VStr (s : string).

#[global] Instance pyval_eq_dec : EqDecision pyval.
Proof. solve_decision. Defined.

(** Python's [==] on these values: [bool] is a subclass of [int], so
    [True == 1] and [False == 0]; values of unrelated types are unequal. *)
Definition py_eq (a b : pyval) : bool :=
  match a, b with
  | VNone, VNone => true
  | VBool x, VBool y => Bool.eqb x y
  | VInt x, VInt y => Z.eqb x y
  | VBool x, VInt y => Z.eqb (if x then 1 else 0) y
  | VInt x, VBool y => Z.eqb x (if y then 1 else 0)
  | VStr x, VStr y => String.eqb x y
  | _, _ => false
  end.

(** Objects that travel in events: a scalar, a metadata dictionary, a
    reference to some object (the [source] of an event), or an identifier
    drawn from [uuid4()]. *)
Inductive pyobj : Type :=
| OVal (v : pyval)
| ODict (d : gmap string pyval)
| ORef (name : string)
| OUuid (n : nat).

Definition bytes : Type := list Byte.byte.

(** ** Exceptions *)

Inductive exn : Type :=
| Exception (msg : string)
| TypeError (msg : string)
| AttributeError (msg : string)
| NameError (msg : string)
| OperationalError (msg : string)
| KeyError (key : string)
| Raised (cls : string) (text : string)
| Unprintable (cls : string) (failure : exn).

(** [repr] of a Python 2 [str]: single quotes unless the string holds a
    single quote and no double quote; the quote and the backslash are
    escaped, tab, newline and carriage return are written symbolically and
    every other byte outside the printable range as [\xNN]. *)
Definition hex_digit (n : nat) : ascii :=
  nth n (list_ascii_of_string "0123456789abcdef") "0"%char.

Definition has_char (c : ascii) (s : string) : bool :=
  existsb (Ascii.eqb c) (list_ascii_of_string s).

Definition repr_char (quote c : ascii) : string :=
  let n := nat_of_ascii c in
  if (Ascii.eqb c quote || Ascii.eqb c "\"%char)%bool then String "\"%char (String c EmptyString)
  else if Nat.eqb n 9 then "\t"
  else if Nat.eqb n 10 then "\n"
  else if Nat.eqb n 13 then "\r"
  else if (Nat.ltb n 32 || Nat.leb 127 n)%bool then
    String "\"%char (String "x"%char
      (String (hex_digit (Nat.div n 16)) (String (hex_digit (Nat.modulo n 16)) EmptyString)))
  else String c EmptyString.

Definition repr (s : string) : string :=
  let dq := ascii_of_nat 34 in
  let quote := if (has_char "'"%char s && negb (has_char dq s))%bool then dq else "'"%char in
  String quote
    (String.concat EmptyString (List.map (repr_char quote) (list_ascii_of_string s))
     +:+ String quote EmptyString).

(** ** The state-and-error monad *)

Inductive result (A : Type) : Type :=
| Return (a : A)
| Raise (e : exn).
Arguments Return {A} a.
Arguments Raise {A} e.

(** [str(exc)]: the single argument of the exception, except that
    [KeyError] shows the [repr] of its key.  The call can fail: an
    exception whose message is a unicode string with a character outside
    ASCII, or whose class has a [__str__] that raises, has no text;
    [Unprintable cls failure] stands for an exception of class [cls] for
    which [str] raises [failure]. *)
Definition str (e : exn) : result string :=
  match e with
  | Exception m | TypeError m | AttributeError m | NameError m
  | OperationalError m => Return m
  | KeyError k => Return (repr k)
  | Raised _ t => Return t
  | Unprintable _ failure => Raise failure
  end.

Definition M (S A : Type) : Type := S → result A * S.

Definition ret {S A} (a : A) : M S A := λ s, (Return a, s).
Definition raise {S A} (e : exn) : M S A := λ s, (Raise e, s).
Definition bind {S A B} (m : M S A) (k : A → M S B) : M S B :=
  λ s, match m s with
       | (Return a, s') => k a s'
       | (Raise e, s') => (Raise e, s')
       end.
Definition of_result {S A} (r : result A) : M S A := λ s, (r, s).
Definition gets {S A} (f : S → A) : M S A := λ s, (Return (f s), s).
Definition modify {S} (f : S → S) : M S unit := λ s, (Return tt, f s).

Notation "x <~ m ; k" := (bind m (λ x, k))
  (at level 20, m at level 100, k at level 200, only parsing).
Notation "m ;> k" := (bind m (λ _, k))
  (at level 100, k at level 200, only parsing, right associativity).

(** The outcome and the final state of a run. *)
Definition outcome {S A} (r : result A * S) : result A := fst r.
Definition final {S A} (r : result A * S) : S := snd r.

Definition raises {A} (r : result A) : Prop := ∃ e, r = Raise e.

(** A computation that leaves a component [f] of the state as it found it,
    whether it returns or raises. *)
Definition keeps {S A X} (f : S → X) (m : M S A) : Prop :=
  ∀ s, f (final (m s)) = f s.

(** ** The with statement *)

(** [with manager: body].  When the body raises, [__exit__] receives the
    exception, and the exception is raised again unless [__exit__] returns
    a true value; an exception of [__exit__] itself replaces it.  When the
    body completes, [__exit__] receives [None]. *)
Definition with_statement {S A} (__enter__ : M S unit)
    (__exit__ : option exn → M S bool) (body : M S A) : M S (option A) :=
  __enter__ ;>
  λ s, match body s with
       | (Return a, s') => (__exit__ None ;> ret (Some a)) s'
       | (Raise e, s') =>
           (suppress <~ __exit__ (Some e) ;
            if suppress : bool then ret None else raise e) s'
       end.

(** ** Keyword calls *)

(** A call that writes out keyword arguments and also unpacks a dictionary
    [kwargs] of further ones raises [TypeError] when [kwargs] holds
    one of the names written out in the call; otherwise the callee receives
    the dictionary.  The same holds for the named parameters of a function
    that also takes [**kwargs]. *)
Definition collides (named : list string) (kwargs : gmap string pyobj) : bool :=
  existsb (λ n, bool_decide (is_Some (kwargs !! n))) named.

Definition multiple_values : exn :=
  TypeError "got multiple values for keyword argument".

Definition keyword_call {S} (named : list string) (kwargs : gmap string pyobj)
  : M S (gmap string pyobj) :=
  if collides named kwargs then raise multiple_values else ret kwargs.

(** [d = base.copy()] followed by [d.update] with the extra keyword
    arguments: the fields of [extra] win. *)
Definition updated (base extra : gmap string pyobj) : gmap string pyobj :=
  extra ∪ base.

(** ** Events *)

Inductive event : Type :=
| ProgressStartEvent (source operation_id : pyobj) (message : string) (steps : Z)
    (kwargs : gmap string pyobj)
| ProgressStepEvent (source operation_id : pyobj) (message : string) (step : Z)
    (kwargs : gmap string pyobj)
| ProgressEndEvent (source operation_id : pyobj) (message : string)
    (exit_state : string) (kwargs : gmap string pyobj)
| StoreSetEvent (source : pyobj) (key : string) (metadata : option (gmap string pyval))
| StoreUpdateEvent (source : pyobj) (key : string) (metadata : option (gmap string pyval))
| StoreDeleteEvent (source : pyobj) (key : string) (metadata : option (gmap string pyval)).

(** The event manager is an external collaborator: [emit] hands the event
    to the listeners and returns.  It is modelled by the sequence of the
    events emitted so far. *)
Definition event_log : Type := list event.

(** * progress_events.py *)

Module ProgressManager.

Record t : Type := mk {
  source : pyobj;
  operation_id : pyobj;
  message : string;
  steps : Z;
  kwargs : gmap string pyobj;
  _step_count : Z;
  _running : bool
}.

Definition set_running (b : bool) (self : t) : t :=
  mk (source self) (operation_id self) (message self) (steps self)
     (kwargs self) (_step_count self) b.

Definition set_step_count (n : Z) (self : t) : t :=
  mk (source self) (operation_id self) (message self) (steps self)
     (kwargs self) n (_running self).

(** A method runs on the manager and on the event manager it refers to. *)
Definition P (A : Type) : Type := M (t * event_log) A.

Definition self_ : P t := gets fst.
Definition emit (e : event) : P unit := modify (λ '(self, log), (self, log ++ [e])).
Definition assign (f : t → t) : P unit := modify (λ '(self, log), (f self, log)).

Definition init_params : list string :=
  ["self"; "event_manager"; "source"; "operation_id"; "message"; "steps"].

(** The constructor, with its extra keyword arguments [kwargs]. *)
Definition __init__ (source operation_id : pyobj) (message : string) (steps : Z)
    (kwargs : gmap string pyobj) : result t :=
  if collides init_params kwargs then Raise multiple_values
  else Return (mk source operation_id message steps kwargs 0 false).

Definition start_fields : list string := ["source"; "operation_id"; "message"; "steps"].
Definition step_fields : list string := ["source"; "operation_id"; "message"; "step"].
Definition end_fields : list string := ["source"; "operation_id"; "message"; "exit_state"].

Definition start (extra_kwargs : gmap string pyobj) : P unit :=
  assign (set_running true) ;>
  self <~ self_ ;
  kwargs <~ keyword_call start_fields (updated (kwargs self) extra_kwargs) ;
  emit (ProgressStartEvent (source self) (operation_id self) (message self)
          (steps self) kwargs).

Definition before_start (method : string) : exn :=
  Exception ("ProgressManager." +:+ method +:+ "() called before start()").

Definition step (message : option string) (step : option Z)
    (extra_kwargs : gmap string pyobj) : P unit :=
  self <~ self_ ;
  if negb (_running self) then raise (before_start "step") else
  let message := default (ProgressManager.message self) message in
  let step := default (_step_count self) step in
  kwargs <~ keyword_call step_fields (updated (kwargs self) extra_kwargs) ;
  emit (ProgressStepEvent (source self) (operation_id self) message step kwargs) ;>
  self <~ self_ ;
  assign (set_step_count (_step_count self + 1)).

Definition end_ (message : option string) (exit_state : string)
    (extra_kwargs : gmap string pyobj) : P unit :=
  self <~ self_ ;
  if negb (_running self) then raise (before_start "end") else
  let message := default (ProgressManager.message self) message in
  kwargs <~ keyword_call end_fields (updated (kwargs self) extra_kwargs) ;
  emit (ProgressEndEvent (source self) (operation_id self) message exit_state kwargs) ;>
  assign (set_running false).

Definition __call__ (message : option string) (step : option Z)
    (extra_kwargs : gmap string pyobj) : P unit :=
  self <~ self_ ;
  (if negb (_running self) then start ∅ else ret tt) ;>
  ProgressManager.step message step extra_kwargs.

Definition __enter__ : P unit :=
  self <~ self_ ;
  if negb (_running self) then start ∅ else ret tt.

(** [__exit__] has no [return]: its result is [None], which is false. *)
Definition __exit__ (exc_value : option exn) : P bool :=
  self <~ self_ ;
  (if _running self then
     match exc_value with
     | Some e => message <~ of_result (str e) ; end_ (Some message) "exception" ∅
     | None => end_ None "normal" ∅
     end
   else ret tt) ;>
  ret false.

Definition with_ {A} (body : P A) : P (option A) :=
  with_statement __enter__ __exit__ body.

(** The events the three methods emit. *)
Definition start_event (self : t) (extra_kwargs : gmap string pyobj) : event :=
  ProgressStartEvent (source self) (operation_id self) (message self) (steps self)
    (updated (kwargs self) extra_kwargs).

Definition step_event (self : t) (message : option string) (step : option Z)
    (extra_kwargs : gmap string pyobj) : event :=
  ProgressStepEvent (source self) (operation_id self)
    (default (ProgressManager.message self) message)
    (default (_step_count self) step)
    (updated (kwargs self) extra_kwargs).

Definition end_event (self : t) (message : option string) (exit_state : string)
    (extra_kwargs : gmap string pyobj) : event :=
  ProgressEndEvent (source self) (operation_id self)
    (default (ProgressManager.message self) message) exit_state
    (updated (kwargs self) extra_kwargs).

(** The calls a user of the operation can make, and a history of such
    calls by a caller who goes on after an exception. *)
Inductive call : Type :=
| CallStart (extra_kwargs : gmap string pyobj)
| CallStep (message : option string) (step : option Z) (extra_kwargs : gmap string pyobj)
| CallEnd (message : option string) (exit_state : string)
    (extra_kwargs : gmap string pyobj)
| CallSelf (message : option string) (step : option Z) (extra_kwargs : gmap string pyobj)
| CallEnter
| CallExit (exc_value : option exn).

Definition perform (c : call) : P unit :=
  match c with
  | CallStart extra_kwargs => start extra_kwargs
  | CallStep message step_number extra_kwargs => step message step_number extra_kwargs
  | CallEnd message exit_state extra_kwargs => end_ message exit_state extra_kwargs
  | CallSelf message step_number extra_kwargs => __call__ message step_number extra_kwargs
  | CallEnter => __enter__
  | CallExit exc_value => __exit__ exc_value ;> ret tt
  end.

Fixpoint after (calls : list call) (s : t * event_log) : t * event_log :=
  match calls with
  | [] => s
  | c :: calls => after calls (final (perform c s))
  end.

Definition returned {S A} (r : result A * S) : bool :=
  match outcome r with
  | Return _ => true
  | Raise _ => false
  end.

(** The calls that run [step]: [step] itself and the callable shorthand. *)
Definition runs_step (c : call) : bool :=
  match c with
  | CallStep _ _ _ | CallSelf _ _ _ => true
  | _ => false
  end.

(** The number of calls of a history that ran [step] and returned. *)
Fixpoint steps_returned (calls : list call) (s : t * event_log) : nat :=
  match calls with
  | [] => 0
  | c :: calls =>
      ((if (runs_step c && returned (perform c s))%bool then 1 else 0)
       + steps_returned calls (final (perform c s)))%nat
  end.

(** A call of [step] whose extra fields, with those of the constructor,
    avoid the names the Step event is built with. *)
Definition call_fits (self : t) (extra_kwargs : gmap string pyobj) : Prop :=
  collides step_fields (updated (kwargs self) extra_kwargs) = false.

(** The block [start(); step(); step(); end()]. *)
Definition start_step_step_end : P unit :=
  start ∅ ;> step None None ∅ ;> step None None ∅ ;> end_ None "normal" ∅.

(** The errors of a call made in the wrong state. *)
Definition invalid_state (e : exn) : Prop :=
  e = before_start "step" ∨ e = before_start "end".

End ProgressManager.

(** * sqlite_store.py *)

Module SqliteStore.

(** One row of the table: the columns [key], [metadata] (already converted
    back to a dictionary by the registered converter) and [data]. *)
Record row : Type := Row {
  col_key : string;
  col_metadata : gmap string pyval;
  col_data : bytes
}.

(** The database behind a connection: its tables by name, each with its
    rows in scan order. *)
Definition database : Type := gmap string (list row).

(** The store object.  [__init__] assigns [event_manager], [location],
    [table] and [_connection]; the methods also read and write [_data] and
    [_metadata], which no method of the class ever assigns: [None] stands
    for an attribute the object does not have. *)
Record t : Type := mk {
  event_manager : event_log;
  location : string;
  table : string;
  _connection : option database;
  _data : option (gmap string bytes);
  _metadata : option (gmap string (gmap string pyval))
}.

Definition set_event_manager (log : event_log) (self : t) : t :=
  mk log (location self) (table self) (_connection self) (_data self) (_metadata self).
Definition set_connection (c : option database) (self : t) : t :=
  mk (event_manager self) (location self) (table self) c (_data self) (_metadata self).
Definition set_data_attr (d : gmap string bytes) (self : t) : t :=
  mk (event_manager self) (location self) (table self) (_connection self) (Some d)
     (_metadata self).
Definition set_metadata_attr (m : gmap string (gmap string pyval)) (self : t) : t :=
  mk (event_manager self) (location self) (table self) (_connection self) (_data self)
     (Some m).

Definition St (A : Type) : Type := M t A.

Definition self_ : St t := gets id.
Definition emit (e : event) : St unit :=
  modify (λ self, set_event_manager (event_manager self ++ [e]) self).

(** The object itself, as the [source] of the events it emits. *)
Definition this : pyobj := ORef "SqliteStore".

Definition __init__ (event_manager : event_log) (location table : string) : t :=
  mk event_manager location table None None None.

(** The names bound at module level: the imports and the definitions of
    the module.  Any other global name raises [NameError] when it is
    evaluated. *)
Definition module_globals : list string :=
  ["cStringIO"; "sqlite3"; "cPickle"; "izip"; "uuid4"; "AbstractStore";
   "buffer_iterator"; "DummyTransactionContext"; "StoreProgressManager";
   "adapt_dict"; "convert_dict"; "SqliteStore"].

Definition unbound (name : string) : exn :=
  NameError ("global name '" +:+ name +:+ "' is not defined").

Definition global {S} (name : string) : M S unit :=
  if bool_decide (name ∈ module_globals) then ret tt else raise (unbound name).

Definition no_attribute (cls name : string) : exn :=
  AttributeError ("'" +:+ cls +:+ "' object has no attribute '" +:+ name +:+ "'").

Definition getattr_data : St (gmap string bytes) :=
  self <~ self_ ;
  match _data self with
  | Some d => ret d
  | None => raise (no_attribute "SqliteStore" "_data")
  end.

Definition getattr_metadata : St (gmap string (gmap string pyval)) :=
  self <~ self_ ;
  match _metadata self with
  | Some m => ret m
  | None => raise (no_attribute "SqliteStore" "_metadata")
  end.

(** What [sqlite3.connect] finds at each location: the database of the
    file there (an empty one for a file it creates), or the error of a
    file it cannot open.  A table is found under the name that
    [sqlite_master] lists for it.  A file that opens and holds no
    database is left out.  The location [:memory:] names no file: it
    gives a new, empty database each time. *)
Definition files : Type := string → result database.

Definition sqlite3_connect (disk : files) (location : string) : result database :=
  if bool_decide (location = ":memory:") then Return ∅ else disk location.

(** The error of the engine for a statement it cannot parse at [token];
    its text puts the token between double quotes. *)
Definition double_quote : string := String (ascii_of_nat 34) EmptyString.
Definition syntax_error_near (token : string) : exn :=
  OperationalError ("near " +:+ double_quote +:+ token +:+ double_quote
                    +:+ ": syntax error").

(** [connect].  The connection is assigned first; when [sqlite3.connect]
    raises, nothing is assigned.  The query on [sqlite_master] binds the
    table name as a value and compares it with the [name] column, a text
    column compared byte by byte: it finds the table exactly when one is
    listed under that very name, with no folding of case and no quoting
    rules, which apply to identifiers written in a statement only.  When
    none is, the statement that should create the table has a placeholder
    where the table name goes, which the engine rejects when it parses
    it, before it looks at the parameters. *)
Definition connect (disk : files) : St unit :=
  self <~ self_ ;
  db <~ of_result (sqlite3_connect disk (location self)) ;
  modify (set_connection (Some db)) ;>
  self <~ self_ ;
  match db !! table self with
  | Some _ => ret tt
  | None => raise (syntax_error_near "?")
  end.

Definition disconnect : St unit := modify (set_connection None).

Definition info : St (gmap string pyval) :=
  self <~ self_ ;
  ret {[ "location" := VStr (location self); "table" := VStr (table self) ]}.

(** [self._connection.execute('select ... from ' + self.table)]: the rows
    of the table. *)
Definition execute_select : St (list row) :=
  self <~ self_ ;
  match _connection self with
  | None => raise (no_attribute "NoneType" "execute")
  | Some db =>
      match db !! table self with
      | Some rows => ret rows
      | None => raise (OperationalError ("no such table: " +:+ table self))
      end
  end.

(** The same with [where key == ?]. *)
Definition execute_select_where (key : string) : St (list row) :=
  cursor <~ execute_select ;
  ret (List.filter (λ r, bool_decide (col_key r = key)) cursor).

Definition get (key : string) : St (bytes * gmap string pyval) :=
  rows <~ execute_select_where key ;
  match rows with
  | [] => raise (KeyError key)
  | r :: _ => ret (col_data r, col_metadata r)
  end.

Definition get_data (key : string) : St bytes :=
  rows <~ execute_select_where key ;
  match rows with
  | [] => raise (KeyError key)
  | r :: _ => ret (col_data r)
  end.

(** [dict((k, metadata[k]) for k in select if k in metadata)]: the pairs
    are inserted one after the other. *)
Definition select_fields (select : list string) (metadata : gmap string pyval)
  : gmap string pyval :=
  fold_left (λ d metadata_key,
               match metadata !! metadata_key with
               | Some v => <[metadata_key := v]> d
               | None => d
               end) select ∅.

Definition get_metadata (key : string) (select : option (list string))
  : St (gmap string pyval) :=
  rows <~ execute_select_where key ;
  match rows with
  | [] => raise (KeyError key)
  | r :: _ =>
      let metadata := col_metadata r in
      match select with
      | Some select => ret (select_fields select metadata)
      | None => ret metadata
      end
  end.

(** [metadata.get(arg)]: [None] for a field that is not there. *)
Definition metadata_get (metadata : gmap string pyval) (arg : string) : pyval :=
  default VNone (metadata !! arg).

(** [all(metadata.get(arg) == value for arg, value in kwargs.items())]. *)
Definition all_match (metadata kwargs : gmap string pyval) : bool :=
  forallb (λ '(arg, value), py_eq (metadata_get metadata arg) value)
          (map_to_list kwargs).

(** The two loops of [query] over the cursor; the result is the sequence
    of the pairs the generator yields. *)
Fixpoint query_select (select : list string) (kwargs : gmap string pyval)
    (cursor : list row) : list (string * gmap string pyval) :=
  match cursor with
  | [] => []
  | r :: cursor =>
      if all_match (col_metadata r) kwargs
      then (col_key r, select_fields select (col_metadata r))
             :: query_select select kwargs cursor
      else query_select select kwargs cursor
  end.

Fixpoint query_all (kwargs : gmap string pyval) (cursor : list row)
  : list (string * gmap string pyval) :=
  match cursor with
  | [] => []
  | r :: cursor =>
      if all_match (col_metadata r) kwargs
      then (col_key r, col_metadata r) :: query_all kwargs cursor
      else query_all kwargs cursor
  end.

Definition query (select : option (list string)) (kwargs : gmap string pyval)
  : St (list (string * gmap string pyval)) :=
  cursor <~ execute_select ;
  match select with
  | Some select => ret (query_select select kwargs cursor)
  | None => ret (query_all kwargs cursor)
  end.

(** *** The methods that write *)

(** Modelled from the spec: [utils.buffer_iterator] is not among the
    sources.  By section 4.3 a streaming set operation reads its source in
    chunks of [buffer_size] bytes and advances the progress operation once
    per chunk read.  The source is a file-like object: [read n] gives at
    most [n] bytes, and everything that is left when [n] is negative; the
    iteration ends at the first empty chunk. *)
Definition read (n : Z) (stream : bytes) : bytes * bytes :=
  if n <? 0 then (stream, [])
  else (take (Z.to_nat n) stream, drop (Z.to_nat n) stream).

Fixpoint chunks_upto (fuel : nat) (buffer_size : Z) (stream : bytes) : list bytes :=
  match fuel with
  | O => []
  | Datatypes.S fuel =>
      match read buffer_size stream with
      | ([], _) => []
      | (chunk, rest) => chunk :: chunks_upto fuel buffer_size rest
      end
  end.

Definition chunks (buffer_size : Z) (stream : bytes) : list bytes :=
  chunks_upto (length stream) buffer_size stream.

Fixpoint step_each (chunks : list bytes) : ProgressManager.P unit :=
  match chunks with
  | [] => ret tt
  | _ :: chunks => ProgressManager.__call__ None None ∅ ;> step_each chunks
  end.

Definition buffer_iterator (stream : bytes) (buffer_size : Z)
  : ProgressManager.P (list bytes) :=
  let read_chunks := chunks buffer_size stream in
  step_each read_chunks ;> ret read_chunks.

(** Modelled from the spec: [utils.StoreProgressManager] is not among the
    sources.  By section 4.3 it is the progress operation of section 4.2,
    driven by the store. *)
Definition StoreProgressManager := ProgressManager.__init__.

(** A block that runs on a progress manager of its own and on the store,
    whose event manager the progress manager shares. *)
Definition Block (A : Type) : Type := M (ProgressManager.t * t) A.

Definition on_progress {A} (m : ProgressManager.P A) : Block A :=
  λ '(progress, self),
    match m (progress, event_manager self) with
    | (r, (progress', log)) => (r, (progress', set_event_manager log self))
    end.

Definition on_store {A} (m : St A) : Block A :=
  λ '(progress, self),
    match m self with
    | (r, self') => (r, (progress, self'))
    end.

Definition with_progress {A} (progress : ProgressManager.t) (body : Block A)
  : St (option A) :=
  λ self,
    match with_statement (on_progress ProgressManager.__enter__)
            (λ exc_value, on_progress (ProgressManager.__exit__ exc_value))
            body (progress, self) with
    | (r, (_, self')) => (r, self')
    end.

Definition set_data (key : string) (data : bytes) (buffer_size : Z) : St unit :=
  d <~ getattr_data ;
  let update := bool_decide (is_Some (d !! key)) in
  m <~ getattr_metadata ;
  let metadata := m !! key in
  self <~ self_ ;
  match StoreProgressManager this (OUuid (length (event_manager self)))
          ("Setting data into '" +:+ key +:+ "'") (-1)
          {[ "key" := OVal (VStr key);
             "metadata" := from_option ODict (OVal VNone) metadata ]} with
  | Raise e => raise e
  | Return progress =>
      with_progress progress
        (chunks <~ on_progress (buffer_iterator data buffer_size) ;
         on_store (d <~ getattr_data ;
                   modify (set_data_attr (<[key := concat chunks]> d)))) ;>
      if update
      then global "StoreUpdateEvent" ;> emit (StoreUpdateEvent this key metadata)
      else global "StoreSetEvent" ;> emit (StoreSetEvent this key metadata)
  end.

Definition set (key : string) (value : bytes * gmap string pyval) (buffer_size : Z)
  : St unit :=
  let '(data, metadata) := value in
  m <~ getattr_metadata ;
  modify (set_metadata_attr (<[key := metadata]> m)) ;>
  set_data key data buffer_size.

Definition delete (key : string) : St unit :=
  d <~ getattr_data ;
  (if bool_decide (is_Some (d !! key))
   then modify (set_data_attr (base.delete key d))
   else raise (KeyError key)) ;>
  m <~ getattr_metadata ;
  match m !! key with
  | None => raise (KeyError key)
  | Some metadata =>
      modify (set_metadata_attr (base.delete key m)) ;>
      global "StoreDeleteEvent" ;>
      emit (StoreDeleteEvent this key (Some metadata))
  end.

(** [key in self._data and key in self._metadata]: the second test is made
    only when the first one holds. *)
Definition exists_ (key : string) : St bool :=
  d <~ getattr_data ;
  if bool_decide (is_Some (d !! key))
  then m <~ getattr_metadata ; ret (bool_decide (is_Some (m !! key)))
  else ret false.

Definition set_metadata (key : string) (metadata : gmap string pyval) : St unit :=
  m <~ getattr_metadata ;
  let update := bool_decide (is_Some (m !! key)) in
  modify (set_metadata_attr (<[key := metadata]> m)) ;>
  if update
  then global "StoreUpdateEvent" ;> emit (StoreUpdateEvent this key (Some metadata))
  else global "StoreSetEvent" ;> emit (StoreSetEvent this key (Some metadata)).

Definition update_metadata (key : string) (metadata : gmap string pyval) : St unit :=
  m <~ getattr_metadata ;
  match m !! key with
  | None => raise (KeyError key)
  | Some old =>
      modify (set_metadata_attr (<[key := metadata ∪ old]> m)) ;>
      global "StoreUpdateEvent" ;>
      emit (StoreUpdateEvent this key (Some (metadata ∪ old)))
  end.

(** Modelled from the spec: the methods [multiset], [multiset_data],
    [multiset_metadata] and [multiupdate_metadata] of the class call those
    of [AbstractStore], which is not among the sources.  By section 4.3
    they pair their two inputs positionally, drop the excess tail of the
    longer one, and call the singular operation once per pair, in order. *)
Fixpoint for_each_pair {A B} (f : A → B → St unit) (xs : list A) (ys : list B)
  : St unit :=
  match xs, ys with
  | x :: xs, y :: ys => f x y ;> for_each_pair f xs ys
  | _, _ => ret tt
  end.

Definition multiset (keys : list string) (values : list (bytes * gmap string pyval))
    (buffer_size : Z) : St unit :=
  for_each_pair (λ key value, set key value buffer_size) keys values.

Definition multiset_data (keys : list string) (datas : list bytes) (buffer_size : Z)
  : St unit :=
  for_each_pair (λ key data, set_data key data buffer_size) keys datas.

Definition multiset_metadata (keys : list string) (metadatas : list (gmap string pyval))
  : St unit :=
  for_each_pair set_metadata keys metadatas.

Definition multiupdate_metadata (keys : list string)
    (metadatas : list (gmap string pyval)) : St unit :=
  for_each_pair update_metadata keys metadatas.

(** *** The store as the specification describes it *)

(** The rows of the table the store is connected to, if it is connected
    and the table is there. *)
Definition table_rows (self : t) : option (list row) :=
  db ← _connection self; db !! table self.

(** What the reading methods consult: the connection and the name of the
    table. *)
Definition backing (self : t) : option database * string :=
  (_connection self, table self).

(** The row stored under a key: the first one that carries it (the key
    column is the primary key of the table). *)
Definition stored (key : string) (rows : list row) : option row :=
  List.find (λ r, bool_decide (col_key r = key)) rows.

(** The metadata restricted to the requested fields, the whole of it when
    no selection is given. *)
Definition requested (select : option (list string)) (metadata : gmap string pyval)
  : gmap string pyval :=
  match select with
  | Some select => filter (λ field_value, field_value.1 ∈ select) metadata
  | None => metadata
  end.

(** The metadata satisfies every equality predicate. *)
Definition satisfies (kwargs metadata : gmap string pyval) : Prop :=
  map_Forall (λ field value, py_eq (metadata_get metadata field) value = true) kwargs.

#[global] Instance satisfies_dec kwargs metadata : Decision (satisfies kwargs metadata).
Proof. unfold satisfies. apply _. Defined.

(** The pairs a query is specified to yield: one for each row whose
    metadata satisfies the predicates, in the order of the rows. *)
Definition query_result (select : option (list string)) (kwargs : gmap string pyval)
    (rows : list row) : list (string * gmap string pyval) :=
  (λ r, (col_key r, requested select (col_metadata r)))
    <$> filter (λ r, satisfies kwargs (col_metadata r)) rows.

End SqliteStore.

(** * Concrete objects *)

Module Examples.

Definition worker : pyobj := ORef "worker".
Definition op : pyobj := OVal (VStr "op-1").

(** A progress manager without extra fields, as the constructor leaves it. *)
Definition plain : ProgressManager.t :=
  ProgressManager.mk worker op "Working" (-1) ∅ 0 false.

(** Progress managers constructed with an extra field [step=7], and with
    an extra field [exit_state='unknown']. *)
Definition step_field : gmap string pyobj := {[ "step" := OVal (VInt 7) ]}.

Definition with_step_field : ProgressManager.t :=
  ProgressManager.mk worker op "Working" (-1) step_field 0 false.

(** A protected block that steps once and then fails, and one that steps
    once and completes. *)
Definition boom : exn := Raised "ValueError" "boom".


(** A database file that already holds the table, with two rows, and the
    store connected to it. *)
Definition meta_done : gmap string pyval := {[ "status" := VStr "done" ]}.
Definition meta_pending : gmap string pyval :=
  {[ "status" := VStr "pending"; "owner" := VStr "ann" ]}.
Definition rows : list SqliteStore.row :=
  [SqliteStore.Row "a" meta_done [Byte.x01];
   SqliteStore.Row "b" meta_pending [Byte.x02; Byte.x03]].
Definition db : SqliteStore.database := {[ "store" := rows ]}.
Definition disk : SqliteStore.files :=
  λ location, if bool_decide (location = "/tmp/store.db") then Return db else Return ∅.
Definition connected : SqliteStore.t :=
  final (SqliteStore.connect disk (SqliteStore.__init__ [] "/tmp/store.db" "store")).

(** A store object on which the two attributes the constructor does not
    assign have been put from outside, empty. *)
Definition patched : SqliteStore.t :=
  SqliteStore.mk [] "/tmp/store.db" "store" (Some db) (Some ∅) (Some ∅).

Definition payload : bytes := [Byte.x68; Byte.x69; Byte.x21].

(** The same with the key [a] put into both of them. *)
Definition holding : SqliteStore.t :=
  SqliteStore.mk [] "/tmp/store.db" "store" (Some db)
    (Some {[ "a" := payload ]}) (Some {[ "a" := meta_done ]}).

End Examples.

(** * The log of a progress operation *)

Module ProgressLog.
Import ProgressManager.

(** Reading a log from its first event on: [Some open] tells whether a
    Start event is open, [None] that a Step or an End event came while
    none was.  Events of other kinds do not count. *)
Definition track (state : option bool) (e : event) : option bool :=
  match state with
  | None => None
  | Some open =>
      match e with
      | ProgressStartEvent _ _ _ _ _ => Some true
      | ProgressStepEvent _ _ _ _ _ => if open then Some true else None
      | ProgressEndEvent _ _ _ _ _ => if open then Some false else None
      | _ => Some open
      end
  end.

Definition read_log (open : bool) (log : event_log) : option bool :=
  fold_left track log (Some open).

(** The event is a progress event that carries the source and the
    operation id of the manager. *)
Definition emitted_by (self : t) (e : event) : Prop :=
  match e with
  | ProgressStartEvent source operation_id _ _ _
  | ProgressStepEvent source operation_id _ _ _
  | ProgressEndEvent source operation_id _ _ _ =>
      source = ProgressManager.source self
      ∧ operation_id = ProgressManager.operation_id self
  | _ => False
  end.

(** A call of [start] whose extra fields, with those of the constructor,
    avoid the names the Start event is built with; the other calls pass
    no extra fields to [start]. *)
Definition start_fits (self : t) (c : call) : Prop :=
  match c with
  | CallStart extra_kwargs =>
      collides start_fields (updated (kwargs self) extra_kwargs) = false
  | _ => True
  end.

(** The loop of the class docstring: the callable shorthand, [n] times. *)
Fixpoint call_times (n : nat) : P unit :=
  match n with
  | O => ret tt
  | S n => __call__ None None ∅ ;> call_times n
  end.

(** The Step events of [n] calls in a row from a counter at [count]. *)
Definition counted_steps (self : t) (count : Z) (n : nat) : list event :=
  (λ i : nat, ProgressStepEvent (source self) (operation_id self) (message self)
                (count + Z.of_nat i) (kwargs self)) <$> seq 0 n.

(** A block that steps once and ends the operation itself with a warning,
    and one that does so and then fails. *)
Definition warning_block : P Z :=
  step None None ∅ ;> end_ (Some "low disk") "warning" ∅ ;> ret 7.
Definition warning_failing_block : P Z :=
  step None None ∅ ;> end_ (Some "low disk") "warning" ∅ ;> raise Examples.boom.

End ProgressLog.

(** * The table of a store *)

Module Table.
Import SqliteStore.

(** The key column is the primary key: no two rows carry the same key. *)
Definition unique_keys (rows : list row) : Prop := NoDup (col_key <$> rows).

(** A metadata dictionary that lacks the field [owner], beside one that has
    it, and a store connected to a table with both. *)
Definition rows : list row :=
  [Row "a" Examples.meta_done [Byte.x01];
   Row "b" Examples.meta_pending [Byte.x02; Byte.x03];
   Row "c" {[ "owner" := VNone ]} []].
Definition db : database := {[ "store" := rows ]}.

(** A database that holds another table only, and a disk with the two
    database files and a directory that is not there. *)
Definition other_db : database := {[ "log" := [] ]}.
Definition cannot_open : exn := OperationalError "unable to open database file".
Definition disk : files :=
  λ location,
    if bool_decide (location = "/tmp/store.db") then Return db
    else if bool_decide (location = "/tmp/log.db") then Return other_db
    else if bool_decide (location = "/nowhere/store.db") then Raise cannot_open
    else Return ∅.
Definition connected : t := final (connect disk (__init__ [] "/tmp/store.db" "store")).

End Table.

(** * Running a sequence of statements *)

Lemma bind_returns {S A B} (m : M S A) (k : A → M S B) s a s' :
  m s = (Return a, s') → bind m k s = k a s'.
Proof. unfold bind. by intros ->. Qed.

Lemma bind_raises {S A B} (m : M S A) (k : A → M S B) s e s' :
  m s = (Raise e, s') → bind m k s = (Raise e, s').
Proof. unfold bind. by intros ->. Qed.

Lemma bind_always_raises {S A B} (m : M S A) (k : A → M S B) s :
  (∀ a s', raises (outcome (k a s'))) → raises (outcome (bind m k s)).
Proof.
  intros Hk. unfold bind. destruct (m s) as [[a|e] s']; [apply Hk|].
  by exists e.
Qed.

Lemma keeps_ret {S A X} (f : S → X) (a : A) : keeps f (ret a).
Proof. by intros s. Qed.

Lemma keeps_raise {S A X} (f : S → X) e : keeps f (raise e : M S A).
Proof. by intros s. Qed.

Lemma keeps_gets {S A X} (f : S → X) (g : S → A) : keeps f (gets g).
Proof. by intros s. Qed.

Lemma keeps_modify {S X} (f : S → X) (g : S → S) :
  (∀ s, f (g s) = f s) → keeps f (modify g).
Proof. intros Hg s. apply Hg. Qed.

Lemma keeps_bind {S A B X} (f : S → X) (m : M S A) (k : A → M S B) :
  keeps f m → (∀ a, keeps f (k a)) → keeps f (bind m k).
Proof.
  intros Hm Hk s. specialize (Hm s). unfold bind, final in *.
  destruct (m s) as [[a|e] s']; simpl in *; [|done].
  rewrite <- Hm. apply Hk.
Qed.

Lemma keeps_with_statement {S A X} (f : S → X) (enter : M S unit)
    (exit : option exn → M S bool) (body : M S A) :
  keeps f enter → (∀ exc_value, keeps f (exit exc_value)) → keeps f body →
  keeps f (with_statement enter exit body).
Proof.
  intros Henter Hexit Hbody. unfold with_statement.
  apply keeps_bind; [done|]. intros _ s.
  specialize (Hbody s). unfold final in *.
  destruct (body s) as [[a|e] s']; simpl in *; rewrite <- Hbody.
  - apply (keeps_bind f); [apply Hexit | intros; apply keeps_ret].
  - apply (keeps_bind f); [apply Hexit|].
    intros [|]; [apply keeps_ret | apply keeps_raise].
Qed.

(** * Properties of the progress operation *)

Module ProgressFacts.
Import ProgressManager.

#[local] Arguments collides : simpl never.
#[local] Arguments updated : simpl never.

(** ** Keyword collisions *)

Lemma collides_false (named : list string) (kwargs : gmap string pyobj) :
  collides named kwargs = false ↔ ∀ n, n ∈ named → kwargs !! n = None.
Proof.
  unfold collides. induction named as [|a named IH]; simpl.
  - split; [intros _ n Hn; inversion Hn | done].
  - rewrite orb_false_iff, bool_decide_eq_false, IH, <- eq_None_not_Some.
    split.
    + intros [Ha Hrest] n Hn. apply elem_of_cons in Hn as [->|Hn]; auto.
    + intros H. split; [apply H; left | intros n Hn; apply H; by right].
Qed.

Lemma collides_weaken (named named' : list string) (kwargs : gmap string pyobj) :
  (∀ n, n ∈ named' → n ∈ named) →
  collides named kwargs = false → collides named' kwargs = false.
Proof. rewrite !collides_false. auto. Qed.

Lemma updated_empty (kwargs : gmap string pyobj) : updated kwargs ∅ = kwargs.
Proof. unfold updated. apply map_empty_union. Qed.

Lemma start_fields_params n : n ∈ start_fields → n ∈ init_params.
Proof.
  unfold start_fields, init_params. rewrite !elem_of_cons, !elem_of_nil. tauto.
Qed.

(** What the constructor returns: the arguments, a counter at 0, not
    running; and its extra fields avoid the names of its parameters. *)
Lemma init_returns source operation_id message steps kwargs self :
  __init__ source operation_id message steps kwargs = Return self →
  self = mk source operation_id message steps kwargs 0 false
  ∧ collides init_params kwargs = false.
Proof.
  unfold __init__. destruct (collides init_params kwargs); [done|].
  intros [= <-]. done.
Qed.

(** ** One call of each method *)

Lemma start_returns self log extra_kwargs :
  collides start_fields (updated (kwargs self) extra_kwargs) = false →
  start extra_kwargs (self, log)
  = (Return tt, (set_running true self, log ++ [start_event self extra_kwargs])).
Proof.
  intros H. unfold start, bind, assign, modify, self_, gets, keyword_call. simpl.
  rewrite H. reflexivity.
Qed.

Lemma start_collides self log extra_kwargs :
  collides start_fields (updated (kwargs self) extra_kwargs) = true →
  start extra_kwargs (self, log) = (Raise multiple_values, (set_running true self, log)).
Proof.
  intros H. unfold start, bind, assign, modify, self_, gets, keyword_call. simpl.
  rewrite H. reflexivity.
Qed.

Lemma step_not_running self log message step_number extra_kwargs :
  _running self = false →
  step message step_number extra_kwargs (self, log)
  = (Raise (before_start "step"), (self, log)).
Proof.
  intros H. unfold step, bind, self_, gets. simpl. rewrite H. reflexivity.
Qed.

Lemma step_returns self log message step_number extra_kwargs :
  _running self = true →
  collides step_fields (updated (kwargs self) extra_kwargs) = false →
  step message step_number extra_kwargs (self, log)
  = (Return tt, (set_step_count (_step_count self + 1) self,
                 log ++ [step_event self message step_number extra_kwargs])).
Proof.
  intros Hr H. unfold step, bind, self_, gets, keyword_call. simpl.
  rewrite Hr. simpl. rewrite H. reflexivity.
Qed.

Lemma step_collides self log message step_number extra_kwargs :
  _running self = true →
  collides step_fields (updated (kwargs self) extra_kwargs) = true →
  step message step_number extra_kwargs (self, log) = (Raise multiple_values, (self, log)).
Proof.
  intros Hr H. unfold step, bind, self_, gets, keyword_call. simpl.
  rewrite Hr. simpl. rewrite H. reflexivity.
Qed.

Lemma end_not_running self log message exit_state extra_kwargs :
  _running self = false →
  end_ message exit_state extra_kwargs (self, log)
  = (Raise (before_start "end"), (self, log)).
Proof.
  intros H. unfold end_, bind, self_, gets. simpl. rewrite H. reflexivity.
Qed.

Lemma end_returns self log message exit_state extra_kwargs :
  _running self = true →
  collides end_fields (updated (kwargs self) extra_kwargs) = false →
  end_ message exit_state extra_kwargs (self, log)
  = (Return tt, (set_running false self,
                 log ++ [end_event self message exit_state extra_kwargs])).
Proof.
  intros Hr H. unfold end_, bind, self_, gets, keyword_call. simpl.
  rewrite Hr. simpl. rewrite H. reflexivity.
Qed.

Lemma end_collides self log message exit_state extra_kwargs :
  _running self = true →
  collides end_fields (updated (kwargs self) extra_kwargs) = true →
  end_ message exit_state extra_kwargs (self, log) = (Raise multiple_values, (self, log)).
Proof.
  intros Hr H. unfold end_, bind, self_, gets, keyword_call. simpl.
  rewrite Hr. simpl. rewrite H. reflexivity.
Qed.

(** ** The state machine *)

(** C4. On an operation that is not running, [step] and [end] raise the
    error of their wrong-state check, emit nothing and change nothing;
    on a running operation neither of them raises such an error. *)
Theorem step_end_need_running self log message step_number exit_state extra_kwargs :
  (_running self = false →
     invalid_state (before_start "step") ∧ invalid_state (before_start "end")
     ∧ step message step_number extra_kwargs (self, log)
       = (Raise (before_start "step"), (self, log))
     ∧ end_ message exit_state extra_kwargs (self, log)
       = (Raise (before_start "end"), (self, log)))
  ∧ (_running self = true →
     ∀ e, outcome (step message step_number extra_kwargs (self, log)) = Raise e
          ∨ outcome (end_ message exit_state extra_kwargs (self, log)) = Raise e →
          ¬ invalid_state e).
Proof.
  split.
  - intros Hr. unfold invalid_state.
    rewrite step_not_running, end_not_running by done. auto.
  - intros Hr e He [Hi|Hi]; subst e.
    + destruct He as [He|He].
      * destruct (collides step_fields (updated (kwargs self) extra_kwargs)) eqn:Hc.
        -- by rewrite step_collides in He.
        -- by rewrite step_returns in He.
      * destruct (collides end_fields (updated (kwargs self) extra_kwargs)) eqn:Hc.
        -- by rewrite end_collides in He.
        -- by rewrite end_returns in He.
    + destruct He as [He|He].
      * destruct (collides step_fields (updated (kwargs self) extra_kwargs)) eqn:Hc.
        -- by rewrite step_collides in He.
        -- by rewrite step_returns in He.
      * destruct (collides end_fields (updated (kwargs self) extra_kwargs)) eqn:Hc.
        -- by rewrite end_collides in He.
        -- by rewrite end_returns in He.
Qed.

Lemma step_end_need_running_witness :
  (step None None ∅ (Examples.plain, [])
   = (Raise (before_start "step"), (Examples.plain, []))
   ∧ end_ None "normal" ∅ (Examples.plain, [])
     = (Raise (before_start "end"), (Examples.plain, [])))
  ∧ ¬ invalid_state multiple_values.
Proof.
  split.
  - pose proof (step_end_need_running Examples.plain [] None None "normal" ∅) as [H _].
    destruct (H eq_refl) as (_ & _ & Hs & He). split; [exact Hs | exact He].
  - pose proof (step_end_need_running
                  (set_running true Examples.with_step_field) [] None None "normal" ∅)
      as [_ H].
    apply (H eq_refl). left. reflexivity.
Defined.

(** C9. [start] has no check of the state.  On every operation the
    constructor returns, whatever its running flag and its counter,
    [start()] returns, emits one Start event and leaves the operation
    running, with its other attributes as they were; so two calls in a
    row emit two Start events. *)
Theorem start_never_raises source operation_id message steps kwargs created
    (running : bool) (count : Z) log :
  __init__ source operation_id message steps kwargs = Return created →
  let self := mk source operation_id message steps kwargs count running in
  let running_self := mk source operation_id message steps kwargs count true in
  let started := ProgressStartEvent source operation_id message steps kwargs in
  created = mk source operation_id message steps kwargs 0 false
  ∧ start ∅ (self, log) = (Return tt, (running_self, log ++ [started]))
  ∧ _running (final (start ∅ (self, log))).1 = true
  ∧ (start ∅ ;> start ∅) (self, log)
    = (Return tt, (running_self, log ++ [started; started])).
Proof.
  intros Hinit self running_self started.
  apply init_returns in Hinit as [-> Hc].
  assert (Hs : ∀ r, collides start_fields
                      (updated (ProgressManager.kwargs
                                  (mk source operation_id message steps kwargs count r)) ∅)
                    = false).
  { intros r. rewrite updated_empty. simpl.
    eapply collides_weaken; [apply start_fields_params | exact Hc]. }
  assert (H1 : ∀ r l, start ∅ (mk source operation_id message steps kwargs count r, l)
                      = (Return tt, (running_self, l ++ [started]))).
  { intros r l. rewrite start_returns by apply Hs.
    unfold start_event. rewrite updated_empty. reflexivity. }
  split; [reflexivity|]. split; [apply (H1 running)|]. split.
  - unfold self. by rewrite (H1 running).
  - erewrite bind_returns by apply (H1 running).
    unfold running_self at 1. rewrite (H1 true). by rewrite <- app_assoc.
Qed.

Lemma start_never_raises_witness :
  start ∅ (Examples.plain, [])
  = (Return tt,
     (mk Examples.worker Examples.op "Working" (-1) ∅ 0 true,
      [ProgressStartEvent Examples.worker Examples.op "Working" (-1) ∅]))
  ∧ (start ∅ ;> start ∅) (mk Examples.worker Examples.op "Working" (-1) ∅ 3 true, [])
    = (Return tt,
       (mk Examples.worker Examples.op "Working" (-1) ∅ 3 true,
        [ProgressStartEvent Examples.worker Examples.op "Working" (-1) ∅;
         ProgressStartEvent Examples.worker Examples.op "Working" (-1) ∅])).
Proof.
  split.
  - exact (proj1 (proj2 (start_never_raises Examples.worker Examples.op "Working" (-1) ∅
                           Examples.plain false 0 [] eq_refl))).
  - exact (proj2 (proj2 (proj2 (start_never_raises Examples.worker Examples.op "Working"
                                  (-1) ∅ Examples.plain true 3 [] eq_refl)))).
Defined.

(** ** A well-formed block *)

Lemma fields_free source operation_id message steps kwargs self :
  __init__ source operation_id message steps kwargs = Return self →
  ∀ n, n ∈ ["source"; "operation_id"; "message"] → kwargs !! n = None.
Proof.
  intros Hinit n Hn. apply init_returns in Hinit as [_ Hc].
  rewrite collides_false in Hc. apply Hc.
  revert Hn. unfold init_params. rewrite !elem_of_cons, !elem_of_nil. tauto.
Qed.

(** The block of C5 on an operation constructed with an extra field named
    [step]: [start()] returns, the first [step()] raises [TypeError], and
    the Start event is the only one emitted. *)
Lemma start_step_step_end_collision :
  __init__ Examples.worker Examples.op "Working" (-1) Examples.step_field
  = Return Examples.with_step_field
  ∧ start_step_step_end (Examples.with_step_field, [])
    = (Raise multiple_values,
       (set_running true Examples.with_step_field,
        [ProgressStartEvent Examples.worker Examples.op "Working" (-1)
           Examples.step_field])).
Proof. split; vm_compute; reflexivity. Qed.

(** C5, amended.  On a freshly created operation whose extra fields are
    not named [step] or [exit_state], the block [start(); step(); step();
    end()] emits four events: Start, Step with step 0, Step with step 1,
    End with exit state normal. *)
Theorem start_step_step_end_events source operation_id message steps kwargs self log :
  __init__ source operation_id message steps kwargs = Return self →
  collides ["step"; "exit_state"] kwargs = false →
  start_step_step_end (self, log)
  = (Return tt,
     (set_step_count 2 self,
      log ++ [ProgressStartEvent source operation_id message steps kwargs;
              ProgressStepEvent source operation_id message 0 kwargs;
              ProgressStepEvent source operation_id message 1 kwargs;
              ProgressEndEvent source operation_id message "normal" kwargs])).
Proof.
  intros Hinit Hfree.
  pose proof (fields_free _ _ _ _ _ _ Hinit) as Hnames.
  apply init_returns in Hinit as [-> Hc].
  rewrite collides_false in Hfree.
  assert (Hfields : ∀ named, (∀ n, n ∈ named →
            n ∈ ["source"; "operation_id"; "message"] ∨ n ∈ ["step"; "exit_state"]) →
            ∀ self', ProgressManager.kwargs self' = kwargs →
            collides named (updated (ProgressManager.kwargs self') ∅) = false).
  { intros named Hsub self' ->. rewrite updated_empty. apply collides_false.
    intros n Hn. destruct (Hsub n Hn); auto. }
  assert (Hstart : ∀ n, n ∈ start_fields → n ∈ init_params) by apply start_fields_params.
  unfold start_step_step_end.
  erewrite bind_returns; cycle 1.
  { apply start_returns. rewrite updated_empty. simpl.
    eapply collides_weaken; [apply Hstart | exact Hc]. }
  erewrite bind_returns; cycle 1.
  { apply step_returns; [done|]. apply Hfields; [|done].
    intros n. unfold step_fields. rewrite !elem_of_cons, !elem_of_nil. tauto. }
  erewrite bind_returns; cycle 1.
  { apply step_returns; [done|]. apply Hfields; [|done].
    intros n. unfold step_fields. rewrite !elem_of_cons, !elem_of_nil. tauto. }
  rewrite end_returns; cycle 1.
  { done. }
  { apply Hfields; [|done].
    intros n. unfold end_fields. rewrite !elem_of_cons, !elem_of_nil. tauto. }
  unfold start_event, step_event, end_event. simpl.
  rewrite !updated_empty, <- !app_assoc. reflexivity.
Qed.

Lemma start_step_step_end_events_witness :
  start_step_step_end (Examples.plain, [])
  = (Return tt,
     (set_step_count 2 Examples.plain,
      [ProgressStartEvent Examples.worker Examples.op "Working" (-1) ∅;
       ProgressStepEvent Examples.worker Examples.op "Working" 0 ∅;
       ProgressStepEvent Examples.worker Examples.op "Working" 1 ∅;
       ProgressEndEvent Examples.worker Examples.op "Working" "normal" ∅])).
Proof.
  exact (start_step_step_end_events Examples.worker Examples.op "Working" (-1) ∅
           Examples.plain [] eq_refl eq_refl).
Defined.

(** ** The step counter *)

(** The three ways [__exit__] can go: the operation is not running and
    nothing happens; it is running and [str] or [end] raises, and nothing
    is emitted; it is running and [end] emits the End event. *)
Lemma exit_outcomes self log exc_value :
  (_running self = false
   ∧ __exit__ exc_value (self, log) = (Return false, (self, log)))
  ∨ (_running self = true
     ∧ ∃ failure, __exit__ exc_value (self, log) = (Raise failure, (self, log)))
  ∨ (_running self = true
     ∧ ∃ message exit_state,
         __exit__ exc_value (self, log)
         = (Return false,
            (set_running false self, log ++ [end_event self message exit_state ∅]))).
Proof.
  unfold __exit__. cbv [bind self_ gets of_result]. cbn [fst].
  destruct (_running self) eqn:Hr; [right | left; done].
  destruct (collides end_fields (updated (kwargs self) ∅)) eqn:Hc.
  - left. split; [done|].
    destruct exc_value as [e|]; [destruct (str e) as [text|failure]|].
    + rewrite end_collides by done. by eexists.
    + by eexists.
    + rewrite end_collides by done. by eexists.
  - destruct exc_value as [e|]; [destruct (str e) as [text|failure]|].
    + right. split; [done|]. rewrite end_returns by done. by do 2 eexists.
    + left. split; [done|]. by eexists.
    + right. split; [done|]. rewrite end_returns by done. by do 2 eexists.
Qed.

(** One call changes at most the running flag and the counter, and the
    counter only when the call ran [step] and returned: then by one. *)
Lemma perform_effect c self log :
  ∃ count running log',
    final (perform c (self, log))
    = (mk (source self) (operation_id self) (message self) (steps self) (kwargs self)
          count running, log')
    ∧ count = _step_count self
              + (if (runs_step c && returned (perform c (self, log)))%bool then 1 else 0).
Proof.
  destruct self as [src op msg stp kw count running].
  destruct c as [x|m n x|m e x|m n x| |exc]; unfold perform.
  - destruct (collides start_fields (updated kw x)) eqn:Hc.
    + rewrite start_collides by done. repeat eexists. simpl. lia.
    + rewrite start_returns by done. repeat eexists. simpl. lia.
  - destruct running.
    + destruct (collides step_fields (updated kw x)) eqn:Hc.
      * rewrite step_collides by done. repeat eexists. simpl. lia.
      * rewrite step_returns by done. repeat eexists.
    + rewrite step_not_running by done. repeat eexists. simpl. lia.
  - destruct running.
    + destruct (collides end_fields (updated kw x)) eqn:Hc.
      * rewrite end_collides by done. repeat eexists. simpl. lia.
      * rewrite end_returns by done. repeat eexists. simpl. lia.
    + rewrite end_not_running by done. repeat eexists. simpl. lia.
  - unfold __call__. erewrite bind_returns by reflexivity. simpl.
    destruct running; simpl.
    + erewrite bind_returns by reflexivity.
      destruct (collides step_fields (updated kw x)) eqn:Hc.
      * rewrite step_collides by done. repeat eexists. simpl. lia.
      * rewrite step_returns by done. repeat eexists.
    + destruct (collides start_fields (updated kw ∅)) eqn:Hs.
      * erewrite bind_raises by (by apply start_collides). repeat eexists. simpl. lia.
      * erewrite bind_returns by (by apply start_returns).
        destruct (collides step_fields (updated kw x)) eqn:Hc.
        -- rewrite step_collides by done. repeat eexists. simpl. lia.
        -- rewrite step_returns by done. repeat eexists.
  - unfold __enter__. erewrite bind_returns by reflexivity. simpl.
    destruct running; simpl.
    + repeat eexists. simpl. lia.
    + destruct (collides start_fields (updated kw ∅)) eqn:Hs.
      * rewrite start_collides by done. repeat eexists. simpl. lia.
      * rewrite start_returns by done. repeat eexists. simpl. lia.
  - destruct (exit_outcomes (mk src op msg stp kw count running) log exc)
      as [[_ Hexit]|[[_ (failure & Hexit)]|[_ (m & e & Hexit)]]].
    + erewrite bind_returns by exact Hexit. repeat eexists. simpl. lia.
    + erewrite bind_raises by exact Hexit. repeat eexists. simpl. lia.
    + erewrite bind_returns by exact Hexit. repeat eexists. simpl. lia.
Qed.

(** Through a history the fields the constructor assigned stay, and the
    counter grows by the number of calls that ran [step] and returned. *)
Lemma after_effect calls : ∀ self log,
  ∃ running log',
    after calls (self, log)
    = (mk (source self) (operation_id self) (message self) (steps self) (kwargs self)
          (_step_count self + Z.of_nat (steps_returned calls (self, log))) running,
       log').
Proof.
  induction calls as [|c calls IH]; intros self log.
  - exists (_running self), log. simpl. rewrite Z.add_0_r. by destruct self.
  - destruct (perform_effect c self log) as (count & running & log' & Hfinal & Hcount).
    cbn [after steps_returned]. rewrite Hfinal.
    destruct (IH (mk (source self) (operation_id self) (message self) (steps self)
                     (kwargs self) count running) log') as (running' & log'' & Hafter).
    rewrite Hafter. exists running', log''. simpl. do 2 f_equal.
    rewrite Hcount. destruct (runs_step c && returned (perform c (self, log)))%bool; lia.
Qed.

(** A running operation constructed with an extra field named [step]:
    [step()] raises [TypeError], emits nothing and leaves the counter. *)
Lemma step_collision_keeps_count :
  let self := set_running true Examples.with_step_field in
  _running self = true
  ∧ step None None ∅ (self, []) = (Raise multiple_values, (self, []))
  ∧ _step_count (fst (final (step None None ∅ (self, [])))) = _step_count self.
Proof. vm_compute. auto. Qed.

(** C10, amended.  Take an operation the constructor returned and any
    history of calls made on it since, of which [n] ran [step] and
    returned.  Then its counter is [n].  If it is running, a further call
    of [step] whose extra fields, with those of the constructor, avoid the
    names [source], [operation_id], [message] and [step] returns, adds one
    to the counter whether or not a step number is given, and emits a Step
    event that carries the given number, or [n] when none is given. *)
Theorem step_counts_calls source operation_id message steps kwargs created log calls :
  __init__ source operation_id message steps kwargs = Return created →
  let s := after calls (created, log) in
  let n := Z.of_nat (steps_returned calls (created, log)) in
  _step_count s.1 = n
  ∧ ∀ message' step_number extra_kwargs,
      _running s.1 = true →
      call_fits s.1 extra_kwargs →
      step message' step_number extra_kwargs s
      = (Return tt,
         (set_step_count (n + 1) s.1,
          s.2 ++ [ProgressStepEvent source operation_id (default message message')
                    (default n step_number) (updated kwargs extra_kwargs)])).
Proof.
  intros Hinit s n. apply init_returns in Hinit as [-> _].
  destruct (after_effect calls
              (mk source operation_id message steps kwargs 0 false) log)
    as (running & log' & Hafter).
  subst s n. rewrite Hafter. simpl. split; [reflexivity|].
  intros message' step_number extra_kwargs Hr Hfit. simpl in Hr. subst running.
  rewrite step_returns; [reflexivity | reflexivity | exact Hfit].
Qed.

Lemma step_counts_calls_witness :
  let calls :=
    [CallStart ∅; CallStep None (Some 10) ∅; CallSelf (Some "halfway") None ∅;
     CallEnd None "warning" ∅; CallStep None None ∅; CallEnter;
     CallStep None (Some (-1)) ∅] in
  step (Some "next") None ∅ (after calls (Examples.plain, []))
  = (Return tt,
     (set_step_count 4 (after calls (Examples.plain, [])).1,
      (after calls (Examples.plain, [])).2
      ++ [ProgressStepEvent Examples.worker Examples.op "next" 3 ∅])).
Proof.
  intros calls.
  exact (proj2 (step_counts_calls Examples.worker Examples.op "Working" (-1) ∅
                  Examples.plain [] calls eq_refl) (Some "next") None ∅ eq_refl eq_refl).
Defined.

(** ** The scoped form *)






End ProgressFacts.

(** * Properties of the store *)

Module StoreFacts.
Import SqliteStore.

(** ** Reading: selection of fields *)

Lemma select_fields_from (metadata : gmap string pyval) (select : list string) :
  ∀ (acc : gmap string pyval) (field : string),
    fold_left (λ d metadata_key,
                 match metadata !! metadata_key with
                 | Some v => <[metadata_key := v]> d
                 | None => d
                 end) select acc !! field
    = if decide (field ∈ select)
      then match metadata !! field with Some v => Some v | None => acc !! field end
      else acc !! field.
Proof.
  induction select as [|k select IH]; intros acc field; cbn [fold_left].
  - destruct (decide (field ∈ [])) as [Hin|_]; [by apply elem_of_nil in Hin | done].
  - rewrite IH.
    destruct (decide (field ∈ select)) as [Hin|Hnin];
      destruct (decide (field ∈ k :: select)) as [Hin'|Hnin'].
    + destruct (metadata !! field) eqn:Hf; [done|].
      destruct (metadata !! k) eqn:Hk; [|done].
      rewrite lookup_insert_ne; [done | congruence].
    + exfalso. apply Hnin'. by right.
    + apply elem_of_cons in Hin' as [->|Hin']; [|done].
      destruct (metadata !! k); [by rewrite lookup_insert_eq | done].
    + destruct (metadata !! k); [|done].
      rewrite lookup_insert_ne; [done|]. intros ->. apply Hnin'. by left.
Qed.

Lemma select_fields_lookup select (metadata : gmap string pyval) field :
  select_fields select metadata !! field
  = if decide (field ∈ select) then metadata !! field else None.
Proof.
  unfold select_fields. rewrite select_fields_from, lookup_empty.
  destruct (decide (field ∈ select)); [|done]. by destruct (metadata !! field).
Qed.

Lemma requested_lookup select (metadata : gmap string pyval) field :
  requested (Some select) metadata !! field
  = if decide (field ∈ select) then metadata !! field else None.
Proof.
  unfold requested. apply option_eq. intros v.
  rewrite map_lookup_filter_Some. simpl.
  destruct (decide (field ∈ select)); [tauto | split; [tauto | discriminate]].
Qed.

Lemma select_fields_requested select (metadata : gmap string pyval) :
  select_fields select metadata = requested (Some select) metadata.
Proof.
  apply map_eq. intros field.
  by rewrite select_fields_lookup, requested_lookup.
Qed.

(** ** Reading: rows by key *)

Lemma execute_select_rows self rows :
  table_rows self = Some rows → execute_select self = (Return rows, self).
Proof.
  unfold table_rows, execute_select, bind, self_, gets. simpl.
  destruct (_connection self) as [db|]; [|done]. simpl.
  by intros ->.
Qed.

Lemma stored_filter key rows :
  stored key rows = head (List.filter (λ r, bool_decide (col_key r = key)) rows).
Proof.
  unfold stored. induction rows as [|r rows IH]; simpl; [done|].
  destruct (bool_decide (col_key r = key)); [done | exact IH].
Qed.

Lemma stored_none key rows :
  stored key rows = None ↔ ∀ r, r ∈ rows → col_key r ≠ key.
Proof.
  unfold stored. induction rows as [|r rows IH]; simpl.
  - split; [intros _ r Hr; inversion Hr | done].
  - destruct (bool_decide (col_key r = key)) eqn:Hk.
    + apply bool_decide_eq_true in Hk. split; [done|].
      intros H. exfalso. apply (H r); [left | done].
    + apply bool_decide_eq_false in Hk. rewrite IH. split.
      * intros H r' [->|Hr']%elem_of_cons; auto.
      * intros H r' Hr'. apply H. by right.
Qed.

Lemma stored_some key rows r :
  stored key rows = Some r → r ∈ rows ∧ col_key r = key.
Proof.
  unfold stored. intros H. apply find_some in H as [Hin Hk].
  apply bool_decide_eq_true in Hk. split; [by apply list_elem_of_In | done].
Qed.

(** C8. On a connected store, [get_metadata] of a key that has a row
    returns the fields of its metadata that are among the requested ones:
    a requested field the metadata lacks is left out and is no error.
    Without a selection it returns the whole metadata.  For a key without
    a row it raises [KeyError].  The store is left as it was. *)
Theorem get_metadata_selects self rows key selection :
  table_rows self = Some rows →
  (∀ r, stored key rows = Some r →
     get_metadata key selection self = (Return (requested selection (col_metadata r)), self)
     ∧ ∀ fields field, selection = Some fields →
         requested selection (col_metadata r) !! field
         = if decide (field ∈ fields) then col_metadata r !! field else None)
  ∧ (stored key rows = None →
     get_metadata key selection self = (Raise (KeyError key), self)).
Proof.
  intros Hrows.
  assert (Hwhere : execute_select_where key self
                   = (Return (List.filter (λ r, bool_decide (col_key r = key)) rows), self)).
  { unfold execute_select_where.
    erewrite bind_returns by (by apply execute_select_rows). reflexivity. }
  split.
  - intros r Hr. split.
    + unfold get_metadata. erewrite bind_returns by exact Hwhere.
      rewrite stored_filter in Hr.
      destruct (List.filter _ rows) as [|r' rest]; [done|].
      simpl in Hr. injection Hr as ->.
      destruct selection as [fields|]; [|done].
      by rewrite select_fields_requested.
    + intros fields field ->. apply requested_lookup.
  - intros Hnone. unfold get_metadata. erewrite bind_returns by exact Hwhere.
    rewrite stored_filter in Hnone.
    by destruct (List.filter _ rows).
Qed.

Lemma get_metadata_selects_witness :
  get_metadata "b" (Some ["owner"; "size"]) Examples.connected
  = (Return {[ "owner" := VStr "ann" ]}, Examples.connected)
  ∧ get_metadata "zz" (Some ["owner"]) Examples.connected
    = (Raise (KeyError "zz"), Examples.connected).
Proof.
  split.
  - pose proof (get_metadata_selects Examples.connected Examples.rows "b"
                  (Some ["owner"; "size"]) eq_refl) as [H _].
    destruct (H (Row "b" Examples.meta_pending [Byte.x02; Byte.x03]) eq_refl) as [Hget _].
    rewrite Hget. f_equal.
  - pose proof (get_metadata_selects Examples.connected Examples.rows "zz"
                  (Some ["owner"]) eq_refl) as [_ H].
    exact (H eq_refl).
Defined.

(** ** Reading: queries *)

Lemma all_match_satisfies (metadata kwargs : gmap string pyval) :
  all_match metadata kwargs = bool_decide (satisfies kwargs metadata).
Proof.
  unfold all_match, satisfies.
  destruct (forallb _ (map_to_list kwargs)) eqn:Hall; symmetry.
  - apply bool_decide_eq_true. apply map_Forall_to_list, Forall_forall.
    rewrite forallb_forall in Hall.
    intros [field value] Hin. apply (Hall (field, value)). by apply list_elem_of_In.
  - apply bool_decide_eq_false. intros Hsat.
    apply map_Forall_to_list in Hsat. rewrite Forall_forall in Hsat.
    assert (forallb (λ '(arg, value), py_eq (metadata_get metadata arg) value)
              (map_to_list kwargs) = true) as Htrue; [|congruence].
    apply forallb_forall. intros [field value] Hin.
    apply (Hsat (field, value)). by apply list_elem_of_In.
Qed.

Lemma query_select_result fields kwargs rows :
  query_select fields kwargs rows = query_result (Some fields) kwargs rows.
Proof.
  unfold query_result. induction rows as [|r rows IH]; [done|].
  cbn [query_select]. rewrite all_match_satisfies, filter_cons.
  destruct (decide (satisfies kwargs (col_metadata r))) as [Hsat|Hsat].
  - rewrite bool_decide_eq_true_2 by done.
    rewrite fmap_cons, IH, select_fields_requested. reflexivity.
  - rewrite bool_decide_eq_false_2 by done. exact IH.
Qed.

Lemma query_all_result kwargs rows :
  query_all kwargs rows = query_result None kwargs rows.
Proof.
  unfold query_result. induction rows as [|r rows IH]; [done|].
  cbn [query_all]. rewrite all_match_satisfies, filter_cons.
  destruct (decide (satisfies kwargs (col_metadata r))) as [Hsat|Hsat].
  - rewrite bool_decide_eq_true_2 by done. rewrite fmap_cons, IH. reflexivity.
  - rewrite bool_decide_eq_false_2 by done. exact IH.
Qed.

(** C6. On a connected store, [query] yields, in the order of the rows,
    one pair for each row whose metadata has [metadata.get(field) == value]
    for every predicate: the key of the row with its metadata, restricted
    to the selected fields when a selection is given.  A pair is yielded
    exactly when such a row exists; without predicates every row is
    yielded.  The store is left as it was. *)
Theorem query_yields_matching_rows self rows selection kwargs :
  table_rows self = Some rows →
  query selection kwargs self = (Return (query_result selection kwargs rows), self)
  ∧ (∀ key metadata,
       (key, metadata) ∈ query_result selection kwargs rows
       ↔ ∃ r, r ∈ rows
              ∧ (∀ field value, kwargs !! field = Some value →
                   py_eq (metadata_get (col_metadata r) field) value = true)
              ∧ key = col_key r
              ∧ metadata = requested selection (col_metadata r))
  ∧ (kwargs = ∅ →
     query_result selection kwargs rows
     = (λ r, (col_key r, requested selection (col_metadata r))) <$> rows).
Proof.
  intros Hrows. split; [|split].
  - unfold query. erewrite bind_returns by (by apply execute_select_rows).
    destruct selection as [fields|].
    + by rewrite query_select_result.
    + by rewrite query_all_result.
  - intros key metadata. unfold query_result.
    rewrite list_elem_of_fmap. split.
    + intros (r & Heq & Hin). apply list_elem_of_filter in Hin as [Hsat Hin].
      injection Heq as -> ->. exists r. split; [done|]. split; [|done].
      intros field value Hk. exact (Hsat field value Hk).
    + intros (r & Hin & Hsat & -> & ->). exists r. split; [done|].
      apply list_elem_of_filter. split; [|done].
      intros field value Hk. exact (Hsat field value Hk).
  - intros ->. unfold query_result. f_equal. clear Hrows.
    induction rows as [|r rows' IH]; [done|].
    rewrite filter_cons_True; [by rewrite IH|].
    unfold satisfies. apply map_Forall_empty.
Qed.

Lemma query_yields_matching_rows_witness :
  query None {[ "status" := VStr "done" ]} Examples.connected
  = (Return [("a", Examples.meta_done)], Examples.connected)
  ∧ query (Some ["owner"]) ∅ Examples.connected
    = (Return [("a", ∅); ("b", {[ "owner" := VStr "ann" ]})], Examples.connected).
Proof.
  split.
  - pose proof (query_yields_matching_rows Examples.connected Examples.rows None
                  {[ "status" := VStr "done" ]} eq_refl) as [H _].
    rewrite H. reflexivity.
  - pose proof (query_yields_matching_rows Examples.connected Examples.rows
                  (Some ["owner"]) ∅ eq_refl) as [H _].
    rewrite H. reflexivity.
Defined.

(** ** Writing *)

(** The events of the store are not among the names the module binds. *)
Lemma store_events_unbound {S} (s : S) :
  global "StoreSetEvent" s = (Raise (unbound "StoreSetEvent"), s)
  ∧ global "StoreUpdateEvent" s = (Raise (unbound "StoreUpdateEvent"), s)
  ∧ global "StoreDeleteEvent" s = (Raise (unbound "StoreDeleteEvent"), s).
Proof. repeat split. Qed.

Lemma keeps_on_progress {A X} (f : t → X) (m : ProgressManager.P A) :
  (∀ log self, f (set_event_manager log self) = f self) →
  keeps (λ s : ProgressManager.t * t, f s.2) (on_progress m).
Proof.
  intros Hf [progress self]. unfold on_progress, final.
  destruct (m (progress, event_manager self)) as [r [progress' log]]. simpl.
  apply Hf.
Qed.

Lemma keeps_on_store {A X} (f : t → X) (m : St A) :
  keeps f m → keeps (λ s : ProgressManager.t * t, f s.2) (on_store m).
Proof.
  intros Hm [progress self]. specialize (Hm self). unfold on_store, final in *.
  by destruct (m self) as [r self'].
Qed.

Lemma keeps_with_progress {A X} (f : t → X) progress (body : Block A) :
  (∀ log self, f (set_event_manager log self) = f self) →
  keeps (λ s : ProgressManager.t * t, f s.2) body →
  keeps f (with_progress progress body).
Proof.
  intros Hf Hbody self. unfold with_progress.
  pose proof (keeps_with_statement (λ s : ProgressManager.t * t, f s.2)
                (on_progress ProgressManager.__enter__)
                (λ exc_value, on_progress (ProgressManager.__exit__ exc_value)) body
                (keeps_on_progress f _ Hf)
                (λ exc_value, keeps_on_progress f _ Hf) Hbody (progress, self)) as H.
  unfold final in *.
  by destruct (with_statement _ _ body (progress, self)) as [r [progress' self']].
Qed.

Lemma keeps_getattr_data {X} (f : t → X) : keeps f getattr_data.
Proof. intros self. unfold getattr_data, bind, self_, gets. simpl. by destruct (_data self). Qed.

Lemma keeps_getattr_metadata {X} (f : t → X) : keeps f getattr_metadata.
Proof.
  intros self. unfold getattr_metadata, bind, self_, gets. simpl.
  by destruct (_metadata self).
Qed.

Lemma keeps_global {S X} (f : S → X) name : keeps f (global name).
Proof. intros s. unfold global. by destruct (bool_decide _). Qed.

Lemma keeps_emit {X} (f : t → X) e :
  (∀ log self, f (set_event_manager log self) = f self) → keeps f (emit e).
Proof. intros Hf self. apply Hf. Qed.

(** No method that writes touches the connection or the table name. *)
Lemma set_data_keeps_backing key data buffer_size :
  keeps backing (set_data key data buffer_size).
Proof.
  unfold set_data.
  apply keeps_bind; [apply keeps_getattr_data | intros d].
  apply keeps_bind; [apply keeps_getattr_metadata | intros m].
  apply keeps_bind; [apply keeps_gets | intros self].
  destruct (StoreProgressManager _ _ _ _ _) as [progress|e]; [|apply keeps_raise].
  apply keeps_bind.
  - apply keeps_with_progress; [done|].
    apply keeps_bind; [by apply (keeps_on_progress backing) | intros chunks].
    apply (keeps_on_store backing).
    apply keeps_bind; [apply keeps_getattr_data | intros d'].
    by apply keeps_modify.
  - intros _. destruct (bool_decide _);
      (apply keeps_bind; [apply keeps_global | intros _; by apply keeps_emit]).
Qed.

Lemma set_keeps_backing key value buffer_size :
  keeps backing (set key value buffer_size).
Proof.
  unfold set. destruct value as [data metadata].
  apply keeps_bind; [apply keeps_getattr_metadata | intros m].
  apply keeps_bind; [by apply keeps_modify | intros _].
  apply set_data_keeps_backing.
Qed.

Lemma delete_keeps_backing key : keeps backing (delete key).
Proof.
  unfold delete.
  apply keeps_bind; [apply keeps_getattr_data | intros d].
  apply keeps_bind.
  - destruct (bool_decide _); [by apply keeps_modify | apply keeps_raise].
  - intros _. apply keeps_bind; [apply keeps_getattr_metadata | intros m].
    destruct (m !! key); [|apply keeps_raise].
    apply keeps_bind; [by apply keeps_modify | intros _].
    apply keeps_bind; [apply keeps_global | intros _; by apply keeps_emit].
Qed.

(** What [get] gives depends on the connection and the table name only. *)
Lemma get_reads_backing key self self' :
  backing self = backing self' → outcome (get key self) = outcome (get key self').
Proof.
  unfold backing. intros [= Hc Ht].
  unfold get, execute_select_where, execute_select, bind, self_, gets, outcome. simpl.
  rewrite Hc, Ht. destruct (_connection self') as [db|]; [|done]. simpl.
  destruct (db !! table self') as [rows|]; [|done]. simpl.
  by destruct (List.filter _ rows).
Qed.

(** On every store object, in every state, [set_data] and [set] end by
    raising: the last statement of [set_data] evaluates a name that is not
    bound. *)
Lemma set_data_always_raises key data buffer_size self :
  raises (outcome (set_data key data buffer_size self)).
Proof.
  unfold set_data.
  apply bind_always_raises. intros d s1.
  apply bind_always_raises. intros m s2.
  apply bind_always_raises. intros self' s3.
  destruct (StoreProgressManager _ _ _ _ _) as [progress|e]; [|by exists e].
  apply bind_always_raises. intros _ s4.
  destruct (bool_decide _); eexists; reflexivity.
Qed.

Lemma set_always_raises key value buffer_size self :
  raises (outcome (set key value buffer_size self)).
Proof.
  unfold set. destruct value as [data metadata].
  apply bind_always_raises. intros m s1.
  apply bind_always_raises. intros _ s2.
  apply set_data_always_raises.
Qed.

(** So on every store object [get] gives after [set] what it gave before. *)
Lemma get_after_set key value buffer_size self :
  raises (outcome (set key value buffer_size self))
  ∧ ∀ key', outcome (get key' (final (set key value buffer_size self)))
            = outcome (get key' self).
Proof.
  split; [apply set_always_raises|].
  intros key'. apply get_reads_backing, set_keeps_backing.
Qed.

(** C1.  [set] followed by [get].  On every store object, in every state,
    [set] ends by raising, and [get] gives afterwards, for every key, what
    it gave before: [set] does not write the table that [get] reads.  On
    the store as the class constructs and connects it, [set] raises
    [AttributeError] at its first statement and changes nothing, and [get]
    of the key raises [KeyError].  With the two attributes put on the
    object from outside, [set] writes them, emits the progress events of
    the transfer and raises [NameError]; [get] still raises [KeyError]. *)
Theorem set_then_get_does_not_round_trip self key value buffer_size :
  (raises (outcome (set key value buffer_size self))
   ∧ ∀ key', outcome (get key' (final (set key value buffer_size self)))
             = outcome (get key' self))
  ∧ set "k" (Examples.payload, Examples.meta_done) 1048576 Examples.connected
    = (Raise (no_attribute "SqliteStore" "_metadata"), Examples.connected)
  ∧ outcome (get "k" Examples.connected) = Raise (KeyError "k")
  ∧ outcome (set "k" (Examples.payload, Examples.meta_done) 1048576 Examples.patched)
    = Raise (unbound "StoreSetEvent")
  ∧ outcome (get "k" (final (set "k" (Examples.payload, Examples.meta_done) 1048576
                               Examples.patched)))
    = Raise (KeyError "k").
Proof.
  split; [apply get_after_set|].
  repeat split; vm_compute; reflexivity.
Qed.

(** ** Deleting *)

Lemma delete_always_raises key self :
  raises (outcome (delete key self))
  ∧ event_manager (final (delete key self)) = event_manager self.
Proof.
  unfold delete, getattr_data, getattr_metadata, self_, gets, bind, outcome, final.
  unfold raises. simpl.
  destruct (_data self) as [d|]; simpl; [|split; [by eexists | done]].
  destruct (bool_decide (is_Some (d !! key))); simpl; [|split; [by eexists | done]].
  destruct (_metadata self) as [m|]; simpl; [|split; [by eexists | done]].
  destruct (m !! key); simpl; (split; [by eexists | done]).
Qed.

(** With both attributes on the object and the key in both of them,
    [delete] removes the two entries and then raises, without an event. *)
Lemma delete_held_key key self d m data metadata :
  _data self = Some d → _metadata self = Some m →
  d !! key = Some data → m !! key = Some metadata →
  delete key self
  = (Raise (unbound "StoreDeleteEvent"),
     set_metadata_attr (base.delete key m) (set_data_attr (base.delete key d) self)).
Proof.
  intros Hd Hm Hdk Hmk.
  unfold delete, getattr_data, getattr_metadata, self_, gets, bind. simpl.
  rewrite Hd. simpl. rewrite bool_decide_eq_true_2 by (by rewrite Hdk).
  simpl. rewrite Hm. simpl. rewrite Hmk. reflexivity.
Qed.

(** C7.  [delete].  On every store object, in every state and for every
    key, [delete] raises, emits no event and leaves the table alone.  On
    the store as the class constructs and connects it, for a key that has
    a row and for one that has none, it raises [AttributeError], as does
    [exists], and the row is still there.  With the two attributes put on
    the object and the key in both, [delete] removes the two entries and
    raises [NameError]. *)
Theorem delete_never_reports self key :
  (raises (outcome (delete key self))
   ∧ event_manager (final (delete key self)) = event_manager self
   ∧ backing (final (delete key self)) = backing self)
  ∧ delete "a" Examples.connected
    = (Raise (no_attribute "SqliteStore" "_data"), Examples.connected)
  ∧ delete "zz" Examples.connected
    = (Raise (no_attribute "SqliteStore" "_data"), Examples.connected)
  ∧ exists_ "a" Examples.connected
    = (Raise (no_attribute "SqliteStore" "_data"), Examples.connected)
  ∧ outcome (get "a" Examples.connected) = Return ([Byte.x01], Examples.meta_done)
  ∧ delete "a" Examples.holding
    = (Raise (unbound "StoreDeleteEvent"), Examples.patched)
  ∧ event_manager Examples.patched = [].
Proof.
  split.
  - destruct (delete_always_raises key self) as [Hraises Hevents].
    split; [exact Hraises|]. split; [exact Hevents|]. apply delete_keeps_backing.
  - repeat split; vm_compute; reflexivity.
Qed.

(** ** The batch operations *)

Lemma for_each_pair_truncates {A B} (f : A → B → St unit) (xs : list A) (ys : list B) :
  let n := Nat.min (length xs) (length ys) in
  for_each_pair f xs ys = for_each_pair f (take n xs) (take n ys).
Proof.
  revert ys. induction xs as [|x xs IH]; intros [|y ys]; simpl; try done.
  by rewrite <- IH.
Qed.

Lemma for_each_pair_raises {A B} (f : A → B → St unit) x xs y ys self :
  (∀ a b s, raises (outcome (f a b s))) →
  raises (outcome (for_each_pair f (x :: xs) (y :: ys) self)).
Proof.
  intros Hf. simpl. unfold bind. specialize (Hf x y self). unfold outcome in *.
  destruct (f x y self) as [[[]|e] s']; [|by exists e].
  by destruct Hf.
Qed.

(** On every store object a [multiset] with at least one pair raises. *)
Lemma multiset_always_raises key keys value values buffer_size self :
  raises (outcome (multiset (key :: keys) (value :: values) buffer_size self)).
Proof.
  unfold multiset. apply for_each_pair_raises.
  intros a b s. apply set_always_raises.
Qed.

(** C2.  The batch operations.  They pair their inputs positionally and
    ignore the excess tail of the longer one; but on every store object a
    [multiset] with at least one pair raises.  With three keys and two
    values on the store as the class constructs and connects it, each of
    the four operations raises at its first pair and no key is set ([get]
    of the first key raises [KeyError]).  With the two attributes put on
    the object, [multiset] sets the first pair in them and raises
    [NameError] before it reaches the second. *)
Theorem multiset_pairs_but_raises self key keys value values buffer_size :
  (let n := Nat.min (length keys) (length values) in
   multiset keys values buffer_size
   = multiset (take n keys) (take n values) buffer_size)
  ∧ raises (outcome (multiset (key :: keys) (value :: values) buffer_size self))
  ∧ (let keys := ["k1"; "k2"; "k3"] in
     let values := [(Examples.payload, Examples.meta_done);
                    (Examples.payload, Examples.meta_pending)] in
     multiset keys values 1048576 Examples.connected
     = (Raise (no_attribute "SqliteStore" "_metadata"), Examples.connected)
     ∧ multiset_data keys (fst <$> values) 1048576 Examples.connected
       = (Raise (no_attribute "SqliteStore" "_data"), Examples.connected)
     ∧ multiset_metadata keys (snd <$> values) Examples.connected
       = (Raise (no_attribute "SqliteStore" "_metadata"), Examples.connected)
     ∧ multiupdate_metadata keys (snd <$> values) Examples.connected
       = (Raise (no_attribute "SqliteStore" "_metadata"), Examples.connected)
     ∧ outcome (get "k1" Examples.connected) = Raise (KeyError "k1")
     ∧ outcome (multiset keys values 1048576 Examples.patched)
       = Raise (unbound "StoreSetEvent")
     ∧ _metadata (final (multiset keys values 1048576 Examples.patched))
       = Some {[ "k1" := Examples.meta_done ]}).
Proof.
  split; [|split].
  - unfold multiset. apply for_each_pair_truncates.
  - apply multiset_always_raises.
  - repeat split; vm_compute; reflexivity.
Qed.

End StoreFacts.

(** * Further properties of the progress operation *)

Module ProgressMore.
Import ProgressManager ProgressLog ProgressFacts.

#[local] Arguments collides : simpl never.
#[local] Arguments updated : simpl never.

Lemma read_log_app open log log' :
  read_log open (log ++ log') = fold_left track log' (read_log open log).
Proof. unfold read_log. apply fold_left_app. Qed.

(** What one call does: it appends events of the manager to the log, and
    when it passes fitting extra fields to [start], the events it appends
    open and close in step with the running flag. *)
Lemma perform_emits c self log :
  ∃ count running suffix,
    final (perform c (self, log))
    = (mk (source self) (operation_id self) (message self) (steps self) (kwargs self)
          count running, log ++ suffix)
    ∧ Forall (emitted_by self) suffix
    ∧ (collides start_fields (kwargs self) = false → start_fits self c →
       fold_left track suffix (Some (_running self)) = Some running).
Proof.
  destruct self as [src op msg stp kw count running].
  destruct c as [x|m n x|m e x|m n x| |exc]; unfold perform; cbn [start_fits kwargs].
  - destruct (collides start_fields (updated kw x)) eqn:Hc.
    + rewrite start_collides by done. exists count, true, [].
      rewrite app_nil_r. split; [done|]. split; [constructor|]. intros _ ?; done.
    + rewrite start_returns by done. eexists count, true, [_].
      split; [reflexivity|]. split; [by repeat constructor | done].
  - destruct running.
    + destruct (collides step_fields (updated kw x)) eqn:Hc.
      * rewrite step_collides by done. exists count, true, [].
        rewrite app_nil_r. split; [done|]. split; [constructor | done].
      * rewrite step_returns by done. eexists _, true, [_].
        split; [reflexivity|]. split; [by repeat constructor | done].
    + rewrite step_not_running by done. exists count, false, [].
      rewrite app_nil_r. split; [done|]. split; [constructor | done].
  - destruct running.
    + destruct (collides end_fields (updated kw x)) eqn:Hc.
      * rewrite end_collides by done. exists count, true, [].
        rewrite app_nil_r. split; [done|]. split; [constructor | done].
      * rewrite end_returns by done. eexists count, false, [_].
        split; [reflexivity|]. split; [by repeat constructor | done].
    + rewrite end_not_running by done. exists count, false, [].
      rewrite app_nil_r. split; [done|]. split; [constructor | done].
  - unfold __call__. erewrite bind_returns by reflexivity. simpl.
    destruct running; simpl.
    + erewrite bind_returns by reflexivity.
      destruct (collides step_fields (updated kw x)) eqn:Hc.
      * rewrite step_collides by done. exists count, true, [].
        rewrite app_nil_r. split; [done|]. split; [constructor | done].
      * rewrite step_returns by done. eexists _, true, [_].
        split; [reflexivity|]. split; [by repeat constructor | done].
    + destruct (collides start_fields (updated kw ∅)) eqn:Hs.
      * erewrite bind_raises by (by apply start_collides). exists count, true, [].
        rewrite app_nil_r. split; [done|]. split; [constructor|].
        intros Hkw _. rewrite updated_empty in Hs. congruence.
      * erewrite bind_returns by (by apply start_returns).
        destruct (collides step_fields (updated kw x)) eqn:Hc.
        -- rewrite step_collides by done. eexists count, true, [_].
           split; [reflexivity|]. split; [by repeat constructor | done].
        -- rewrite step_returns by done. eexists _, true, [_; _].
           rewrite <- app_assoc.
           split; [reflexivity|]. split; [by repeat constructor | done].
  - unfold __enter__. erewrite bind_returns by reflexivity. simpl.
    destruct running; simpl.
    + exists count, true, []. rewrite app_nil_r.
      split; [done|]. split; [constructor | done].
    + destruct (collides start_fields (updated kw ∅)) eqn:Hs.
      * rewrite start_collides by done. exists count, true, [].
        rewrite app_nil_r. split; [done|]. split; [constructor|].
        intros Hkw _. rewrite updated_empty in Hs. congruence.
      * rewrite start_returns by done. eexists count, true, [_].
        split; [reflexivity|]. split; [by repeat constructor | done].
  - destruct (exit_outcomes (mk src op msg stp kw count running) log exc)
      as [[Hr Hexit]|[[Hr (failure & Hexit)]|[Hr (m & e & Hexit)]]];
      simpl in Hr; subst running.
    + erewrite bind_returns by exact Hexit. exists count, false, [].
      rewrite app_nil_r. split; [done|]. split; [constructor | done].
    + erewrite bind_raises by exact Hexit. exists count, true, [].
      rewrite app_nil_r. split; [done|]. split; [constructor | done].
    + erewrite bind_returns by exact Hexit. eexists count, false, [_].
      split; [reflexivity|]. split; [by repeat constructor | done].
Qed.

Lemma after_emits calls : ∀ self log,
  ∃ count running suffix,
    after calls (self, log)
    = (mk (source self) (operation_id self) (message self) (steps self) (kwargs self)
          count running, log ++ suffix)
    ∧ Forall (emitted_by self) suffix
    ∧ (collides start_fields (kwargs self) = false → Forall (start_fits self) calls →
       fold_left track suffix (Some (_running self)) = Some running).
Proof.
  induction calls as [|c calls IH]; intros self log.
  - exists (_step_count self), (_running self), []. rewrite app_nil_r.
    split; [by destruct self|]. split; [constructor | done].
  - destruct (perform_emits c self log)
      as (count & running & suffix & Hfinal & Hby & Htrack).
    cbn [after]. rewrite Hfinal.
    destruct (IH (mk (source self) (operation_id self) (message self) (steps self)
                     (kwargs self) count running) (log ++ suffix))
      as (count' & running' & suffix' & Hafter & Hby' & Htrack').
    exists count', running', (suffix ++ suffix').
    split; [etrans; [exact Hafter|]; simpl; by rewrite app_assoc|]. split.
    + apply Forall_app. split; [exact Hby|].
      eapply Forall_impl; [exact Hby'|]. intros e. by destruct e.
    + intros Hkw Hfit. apply Forall_cons in Hfit as [Hc Hfit].
      rewrite fold_left_app, (Htrack Hkw Hc). apply Htrack'; [exact Hkw|].
      eapply Forall_impl; [exact Hfit|]. intros c'. by destruct c'.
Qed.

(** X1.  The log of an operation is well bracketed.  Take an operation the
    constructor returned, a log in which no Start event is open, and any
    history of calls whose [start] calls pass fitting extra fields.  Then
    in the log every Step and every End event comes while a Start event is
    open, and the operation is running exactly when one is open at the
    end. *)
Theorem log_is_bracketed source operation_id message steps kwargs created log calls :
  __init__ source operation_id message steps kwargs = Return created →
  read_log false log = Some false →
  Forall (start_fits created) calls →
  read_log false (after calls (created, log)).2
  = Some (_running (after calls (created, log)).1).
Proof.
  intros Hinit Hlog Hfit.
  apply init_returns in Hinit as [-> Hc].
  assert (Hkw : collides start_fields kwargs = false).
  { eapply collides_weaken; [apply start_fields_params | exact Hc]. }
  destruct (after_emits calls (mk source operation_id message steps kwargs 0 false) log)
    as (count & running & suffix & Hafter & _ & Htrack).
  rewrite Hafter. simpl. rewrite read_log_app, Hlog. apply Htrack; [exact Hkw | exact Hfit].
Qed.

Lemma log_is_bracketed_witness :
  let calls :=
    [CallStep None None ∅; CallSelf None None ∅; CallStart {[ "phase" := OVal (VInt 2) ]};
     CallStep None (Some 5) ∅; CallExit (Some Examples.boom); CallEnd None "error" ∅] in
  read_log false (after calls (Examples.plain, [])).2 = Some false.
Proof.
  intros calls.
  assert (Hfit : Forall (start_fits Examples.plain) calls).
  { repeat constructor. }
  exact (log_is_bracketed Examples.worker Examples.op "Working" (-1) ∅ Examples.plain
           [] calls eq_refl eq_refl Hfit).
Defined.

(** X2.  Through any history of calls the manager keeps the source, the
    operation id, the message, the step total and the extra fields the
    constructor gave it; the events already in the log stay, and every
    event appended is a progress event with that source and operation
    id. *)
Theorem events_carry_the_operation calls self log :
  let s := after calls (self, log) in
  (source s.1, operation_id s.1, message s.1, steps s.1, kwargs s.1)
  = (source self, operation_id self, message self, steps self, kwargs self)
  ∧ ∃ suffix, s.2 = log ++ suffix ∧ Forall (emitted_by self) suffix.
Proof.
  destruct (after_emits calls self log) as (count & running & suffix & Hafter & Hby & _).
  simpl. rewrite Hafter. simpl. split; [reflexivity|]. by exists suffix.
Qed.

(** X3.  A [start] that fails does not undo its first statement.  Take an
    operation the constructor returned, without an extra field named
    [exit_state], that is not running, and a log in which no Start event
    is open.  With an extra field that collides with a field of the Start
    event, [start] raises [TypeError] and emits nothing, but the operation
    is running afterwards: [end] then returns, leaves it not running, and
    emits an End event that no open Start event precedes. *)
Theorem failed_start_leaves_running source operation_id message steps kwargs created
    count log extra_kwargs :
  __init__ source operation_id message steps kwargs = Return created →
  collides ["exit_state"] kwargs = false →
  collides start_fields (updated kwargs extra_kwargs) = true →
  read_log false log = Some false →
  let idle := mk source operation_id message steps kwargs count false in
  let left_running := mk source operation_id message steps kwargs count true in
  let ended := ProgressEndEvent source operation_id message "normal" kwargs in
  start extra_kwargs (idle, log) = (Raise multiple_values, (left_running, log))
  ∧ end_ None "normal" ∅ (left_running, log) = (Return tt, (idle, log ++ [ended]))
  ∧ read_log false (log ++ [ended]) = None.
Proof.
  intros Hinit Hfree Hs Hlog idle left_running ended.
  pose proof (fields_free _ _ _ _ _ _ Hinit) as Hnames.
  rewrite collides_false in Hfree.
  assert (He : collides end_fields kwargs = false).
  { apply collides_false. intros k. unfold end_fields.
    rewrite !elem_of_cons, !elem_of_nil. intros [->|[->|[->|[->|[]]]]].
    - apply Hnames. by left.
    - apply Hnames. right. by left.
    - apply Hnames. right. right. by left.
    - apply Hfree. by left. }
  split; [by apply start_collides|]. split.
  - rewrite end_returns; [| done | by rewrite updated_empty].
    unfold end_event. rewrite updated_empty. reflexivity.
  - by rewrite read_log_app, Hlog.
Qed.

Lemma failed_start_leaves_running_witness :
  start {[ "message" := OVal (VStr "again") ]} (Examples.plain, [])
  = (Raise multiple_values, (mk Examples.worker Examples.op "Working" (-1) ∅ 0 true, []))
  ∧ end_ None "normal" ∅ (mk Examples.worker Examples.op "Working" (-1) ∅ 0 true, [])
    = (Return tt,
       (Examples.plain,
        [ProgressEndEvent Examples.worker Examples.op "Working" "normal" ∅])).
Proof.
  pose (no_fields := ∅ : gmap string pyobj).
  assert (Hinit : __init__ Examples.worker Examples.op "Working" (-1) no_fields
                  = Return Examples.plain).
  { reflexivity. }
  assert (Hfree : collides ["exit_state"] no_fields = false).
  { reflexivity. }
  assert (Hcollides : collides start_fields
            (updated no_fields {[ "message" := OVal (VStr "again") ]}) = true).
  { vm_compute. reflexivity. }
  destruct (failed_start_leaves_running Examples.worker Examples.op "Working" (-1)
              no_fields Examples.plain 0 [] {[ "message" := OVal (VStr "again") ]}
              Hinit Hfree Hcollides eq_refl)
    as (Hstart & Hend & _).
  split; [exact Hstart | exact Hend].
Defined.

(** ** The scoped form and the callable shorthand *)

Lemma exit_not_running self log exc_value :
  _running self = false → __exit__ exc_value (self, log) = (Return false, (self, log)).
Proof.
  intros Hr. unfold __exit__. cbv [bind self_ gets]. cbn [fst]. rewrite Hr. reflexivity.
Qed.

Lemma call_running self log message step_number extra_kwargs :
  _running self = true →
  __call__ message step_number extra_kwargs (self, log)
  = step message step_number extra_kwargs (self, log).
Proof.
  intros Hr. unfold __call__. erewrite bind_returns by reflexivity.
  cbn [fst]. rewrite Hr. reflexivity.
Qed.

(** X4.  A block that has ended the operation itself is left alone by
    scope exit: no second End event is emitted, the state is the one the
    block left, and the result or the error of the block passes through. *)
Theorem scope_exit_after_end {A} (body : P A) self log entered r self' log' :
  __enter__ (self, log) = (Return tt, entered) →
  body entered = (r, (self', log')) →
  _running self' = false →
  with_ body (self, log)
  = (match r with Return a => Return (Some a) | Raise e => Raise e end, (self', log')).
Proof.
  intros Henter Hbody Hr. unfold with_, with_statement.
  erewrite bind_returns by exact Henter. rewrite Hbody.
  destruct r as [a|e].
  - erewrite bind_returns by (by apply exit_not_running). reflexivity.
  - erewrite bind_returns by (by apply exit_not_running). reflexivity.
Qed.

Lemma scope_exit_after_end_witness :
  let started := ProgressStartEvent Examples.worker Examples.op "Working" (-1) ∅ in
  let stepped := ProgressStepEvent Examples.worker Examples.op "Working" 0 ∅ in
  let ended := ProgressEndEvent Examples.worker Examples.op "low disk" "warning" ∅ in
  with_ warning_block (Examples.plain, [])
  = (Return (Some 7), (set_step_count 1 Examples.plain, [started; stepped; ended]))
  ∧ with_ warning_failing_block (Examples.plain, [])
    = (Raise Examples.boom, (set_step_count 1 Examples.plain, [started; stepped; ended])).
Proof.
  intros started stepped ended.
  pose (entered := (set_running true Examples.plain, [started])).
  split.
  - exact (scope_exit_after_end warning_block Examples.plain [] entered (Return 7)
             (set_step_count 1 Examples.plain) [started; stepped; ended]
             eq_refl eq_refl eq_refl).
  - exact (scope_exit_after_end warning_failing_block Examples.plain [] entered
             (Raise Examples.boom)
             (set_step_count 1 Examples.plain) [started; stepped; ended]
             eq_refl eq_refl eq_refl).
Defined.

Lemma counted_steps_succ self count n :
  counted_steps self count (S n)
  = ProgressStepEvent (source self) (operation_id self) (message self) count (kwargs self)
    :: counted_steps self (count + 1) n.
Proof.
  unfold counted_steps. cbn [seq fmap list_fmap]. rewrite Z.add_0_r. f_equal.
  rewrite <- fmap_S_seq, <- list_fmap_compose.
  apply list_fmap_ext. intros _ i _. simpl. f_equal. lia.
Qed.

Lemma call_times_running n : ∀ self log,
  _running self = true →
  collides step_fields (kwargs self) = false →
  call_times n (self, log)
  = (Return tt,
     (set_step_count (_step_count self + Z.of_nat n) self,
      log ++ counted_steps self (_step_count self) n)).
Proof.
  induction n as [|n IH]; intros self log Hr Hc.
  - simpl. rewrite Z.add_0_r, app_nil_r. by destruct self.
  - cbn [call_times].
    erewrite bind_returns; cycle 1.
    { rewrite call_running by done.
      apply step_returns; [done | by rewrite updated_empty]. }
    rewrite IH; [| done | done].
    rewrite counted_steps_succ, <- app_assoc.
    unfold step_event. rewrite updated_empty. simpl.
    replace (_step_count self + 1 + Z.of_nat n) with (_step_count self + Z.of_nat (S n))
      by lia.
    reflexivity.
Qed.



(** X6.  The callable shorthand starts the operation once and never
    ends it.  On a freshly created operation without an extra field named
    [step], one or more calls in a row emit one Start event and then one
    Step event per call, numbered from 0; the operation is left running,
    with no End event. *)
Theorem shorthand_starts_once source operation_id message steps kwargs created log n :
  __init__ source operation_id message steps kwargs = Return created →
  collides ["step"] kwargs = false →
  call_times (S n) (created, log)
  = (Return tt,
     (mk source operation_id message steps kwargs (Z.of_nat (S n)) true,
      log ++ ProgressStartEvent source operation_id message steps kwargs
          :: counted_steps created 0 (S n))).
Proof.
  intros Hinit Hfree.
  pose proof (fields_free _ _ _ _ _ _ Hinit) as Hnames.
  apply init_returns in Hinit as [-> Hc].
  rewrite collides_false in Hfree.
  assert (Hstep : collides step_fields kwargs = false).
  { apply collides_false. intros k. unfold step_fields.
    rewrite !elem_of_cons, !elem_of_nil. intros [->|[->|[->|[->|[]]]]].
    - apply Hnames. by left.
    - apply Hnames. right. by left.
    - apply Hnames. right. right. by left.
    - apply Hfree. by left. }
  cbn [call_times].
  erewrite bind_returns; cycle 1.
  { unfold __call__. erewrite bind_returns by reflexivity. cbn [fst _running negb].
    erewrite bind_returns; cycle 1.
    { apply start_returns. rewrite updated_empty. simpl.
      eapply collides_weaken; [apply start_fields_params | exact Hc]. }
    apply step_returns; [done | by rewrite updated_empty]. }
  rewrite call_times_running; [| done | done].
  rewrite counted_steps_succ.
  unfold start_event, step_event. rewrite !updated_empty. simpl.
  rewrite <- !app_assoc. simpl.
  replace (0 + 1 + Z.of_nat n) with (Z.of_nat (S n)) by lia.
  reflexivity.
Qed.

Lemma shorthand_starts_once_witness :
  call_times 2 (Examples.plain, [])
  = (Return tt,
     (mk Examples.worker Examples.op "Working" (-1) ∅ 2 true,
      [ProgressStartEvent Examples.worker Examples.op "Working" (-1) ∅;
       ProgressStepEvent Examples.worker Examples.op "Working" 0 ∅;
       ProgressStepEvent Examples.worker Examples.op "Working" 1 ∅])).
Proof.
  exact (shorthand_starts_once Examples.worker Examples.op "Working" (-1) ∅
           Examples.plain [] 1 eq_refl eq_refl).
Defined.

End ProgressMore.

(** * Further properties of the store *)

Module StoreMore.
Import SqliteStore Table StoreFacts.

(** ** The methods that read *)

Lemma execute_select_cases self :
  (∃ rows, table_rows self = Some rows ∧ execute_select self = (Return rows, self))
  ∨ (table_rows self = None ∧ ∃ e, execute_select self = (Raise e, self)).
Proof.
  unfold table_rows, execute_select, self_, gets, bind. simpl.
  destruct (_connection self) as [db|]; simpl; [|right; eauto].
  destruct (db !! table self) as [rows|]; [left | right]; eauto.
Qed.

Lemma reads_raise self e key selection kwargs :
  execute_select self = (Raise e, self) →
  get key self = (Raise e, self)
  ∧ get_data key self = (Raise e, self)
  ∧ get_metadata key selection self = (Raise e, self)
  ∧ query selection kwargs self = (Raise e, self).
Proof.
  intros He.
  assert (Hwhere : execute_select_where key self = (Raise e, self)).
  { unfold execute_select_where. by erewrite bind_raises. }
  unfold get, get_data, get_metadata, query.
  repeat split; by erewrite bind_raises.
Qed.

Lemma reads_return self rows key selection kwargs :
  execute_select self = (Return rows, self) →
  get key self
  = (match stored key rows with
     | Some r => Return (col_data r, col_metadata r)
     | None => Raise (KeyError key)
     end, self)
  ∧ get_data key self
    = (match stored key rows with
       | Some r => Return (col_data r)
       | None => Raise (KeyError key)
       end, self)
  ∧ get_metadata key selection self
    = (match stored key rows with
       | Some r => Return (requested selection (col_metadata r))
       | None => Raise (KeyError key)
       end, self)
  ∧ query selection kwargs self = (Return (query_result selection kwargs rows), self).
Proof.
  intros He.
  assert (Hwhere : execute_select_where key self
                   = (Return (List.filter (λ r, bool_decide (col_key r = key)) rows), self)).
  { unfold execute_select_where. by erewrite bind_returns. }
  unfold get, get_data, get_metadata, query. rewrite stored_filter.
  split; [|split; [|split]].
  - erewrite bind_returns by exact Hwhere. by destruct (List.filter _ rows).
  - erewrite bind_returns by exact Hwhere. by destruct (List.filter _ rows).
  - erewrite bind_returns by exact Hwhere.
    destruct (List.filter _ rows); [done|]. simpl.
    destruct selection as [fields|]; [|done]. by rewrite select_fields_requested.
  - erewrite bind_returns by exact He.
    destruct selection as [fields|].
    + by rewrite query_select_result.
    + by rewrite query_all_result.
Qed.

(** X7.  The methods that read leave the store object as it is, in every
    state and whether they return or raise; and [get] gives the pair of
    what [get_data] and [get_metadata] give, or raises what [get_data]
    raises. *)
Theorem reads_change_nothing self key selection kwargs :
  final (get key self) = self
  ∧ final (get_data key self) = self
  ∧ final (get_metadata key selection self) = self
  ∧ final (query selection kwargs self) = self
  ∧ final (info self) = self
  ∧ get key self
    = (data <~ get_data key ; metadata <~ get_metadata key None ; ret (data, metadata)) self.
Proof.
  destruct (execute_select_cases self) as [(rows & _ & He)|(_ & e & He)].
  - destruct (reads_return self rows key selection kwargs He) as (Hg & Hd & Hm & Hq).
    destruct (reads_return self rows key None kwargs He) as (_ & _ & Hm' & _).
    rewrite Hg, Hd, Hm, Hq. repeat split.
    destruct (stored key rows) as [r|].
    + erewrite bind_returns by exact Hd. erewrite bind_returns by exact Hm'. reflexivity.
    + erewrite bind_raises by exact Hd. reflexivity.
  - destruct (reads_raise self e key selection kwargs He) as (Hg & Hd & Hm & Hq).
    rewrite Hg, Hd, Hm, Hq. repeat split.
    erewrite bind_raises by exact Hd. reflexivity.
Qed.

(** X8.  On a connected store [get] and [get_data] return the data (and
    metadata) of the row stored under the key, and raise [KeyError] with
    the key when no row carries it; what they return is always taken from
    a row of the table. *)
Theorem get_returns_the_row self rows key :
  table_rows self = Some rows →
  (∀ r, stored key rows = Some r →
     r ∈ rows ∧ col_key r = key
     ∧ get key self = (Return (col_data r, col_metadata r), self)
     ∧ get_data key self = (Return (col_data r), self))
  ∧ ((∀ r, r ∈ rows → col_key r ≠ key) →
     get key self = (Raise (KeyError key), self)
     ∧ get_data key self = (Raise (KeyError key), self)).
Proof.
  intros Hrows.
  destruct (reads_return self rows key None ∅ (execute_select_rows _ _ Hrows))
    as (Hg & Hd & _ & _).
  split.
  - intros r Hr. destruct (stored_some _ _ _ Hr) as [Hin Hk].
    rewrite Hg, Hd, Hr. done.
  - intros Hnone. apply stored_none in Hnone. rewrite Hg, Hd, Hnone. done.
Qed.

Lemma get_returns_the_row_witness :
  get "b" Table.connected
  = (Return ([Byte.x02; Byte.x03], Examples.meta_pending), Table.connected)
  ∧ get_data "zz" Table.connected = (Raise (KeyError "zz"), Table.connected).
Proof.
  pose proof (get_returns_the_row Table.connected Table.rows "b" eq_refl) as [Hb _].
  pose proof (get_returns_the_row Table.connected Table.rows "zz" eq_refl) as [_ Hz].
  split.
  - exact (proj1 (proj2 (proj2 (Hb (Row "b" Examples.meta_pending [Byte.x02; Byte.x03])
                                   eq_refl)))).
  - apply Hz. intros r Hr.
    repeat (apply elem_of_cons in Hr as [->|Hr]; [discriminate|]).
    by apply elem_of_nil in Hr.
Defined.

(** ** Connecting and disconnecting *)

(** X9.  [disconnect] always returns, and disconnecting twice is the same
    as once.  On a disconnected store every method that reads raises
    [AttributeError], since the connection is [None]; [info] still gives
    the location and the table name the store was constructed with. *)
Theorem disconnect_ends_reading self key selection kwargs :
  let closed := final (disconnect self) in
  let no_execute := no_attribute "NoneType" "execute" in
  outcome (disconnect self) = Return tt
  ∧ disconnect closed = (Return tt, closed)
  ∧ get key closed = (Raise no_execute, closed)
  ∧ get_data key closed = (Raise no_execute, closed)
  ∧ get_metadata key selection closed = (Raise no_execute, closed)
  ∧ query selection kwargs closed = (Raise no_execute, closed)
  ∧ outcome (info closed)
    = Return {[ "location" := VStr (location self); "table" := VStr (table self) ]}.
Proof.
  intros closed no_execute.
  assert (He : execute_select closed = (Raise no_execute, closed)) by reflexivity.
  destruct (reads_raise closed no_execute key selection kwargs He) as (Hg & Hd & Hm & Hq).
  by repeat split.
Qed.



(** ** Queries *)

Lemma stored_unique rows r :
  unique_keys rows → r ∈ rows → stored (col_key r) rows = Some r.
Proof.
  unfold unique_keys, stored. induction rows as [|r0 rows IH]; intros Hnd Hin.
  - by apply elem_of_nil in Hin.
  - rewrite fmap_cons in Hnd. apply NoDup_cons in Hnd as [Hfresh Hnd]. simpl.
    apply elem_of_cons in Hin as [->|Hin].
    + by rewrite bool_decide_eq_true_2.
    + rewrite bool_decide_eq_false_2; [by apply IH|].
      intros Heq. apply Hfresh. rewrite Heq. apply list_elem_of_fmap. by exists r.
Qed.

Lemma query_result_elem selection kwargs rows key metadata :
  (key, metadata) ∈ query_result selection kwargs rows
  ↔ ∃ r, r ∈ rows ∧ satisfies kwargs (col_metadata r)
         ∧ key = col_key r ∧ metadata = requested selection (col_metadata r).
Proof.
  unfold query_result. rewrite list_elem_of_fmap. split.
  - intros (r & [= -> ->] & [Hsat Hin]%list_elem_of_filter). by exists r.
  - intros (r & Hin & Hsat & -> & ->). exists r. split; [done|].
    by apply list_elem_of_filter.
Qed.

(** X11.  A query and [get_metadata] agree.  On a connected store whose
    rows carry distinct keys, every pair a query yields holds the metadata
    that [get_metadata] returns for that key under the same selection. *)
Theorem query_agrees_with_get_metadata self rows selection kwargs result key metadata :
  table_rows self = Some rows →
  unique_keys rows →
  outcome (query selection kwargs self) = Return result →
  (key, metadata) ∈ result →
  get_metadata key selection self = (Return metadata, self).
Proof.
  intros Hrows Hunique Hquery Hin.
  pose proof (execute_select_rows _ _ Hrows) as He.
  destruct (reads_return self rows key selection kwargs He) as (_ & _ & Hm & Hq).
  rewrite Hq in Hquery. injection Hquery as <-.
  apply query_result_elem in Hin as (r & Hr & _ & -> & ->).
  by rewrite Hm, (stored_unique rows r Hunique Hr).
Qed.

Lemma query_agrees_with_get_metadata_witness :
  get_metadata "b" (Some ["owner"]) Table.connected
  = (Return {[ "owner" := VStr "ann" ]}, Table.connected).
Proof.
  assert (Hunique : unique_keys Table.rows).
  { unfold unique_keys. apply (bool_decide_unpack _). vm_compute. exact I. }
  assert (Hin : ("b", {[ "owner" := VStr "ann" ]})
                ∈ [("b", ({[ "owner" := VStr "ann" ]} : gmap string pyval))]).
  { left. }
  exact (query_agrees_with_get_metadata Table.connected Table.rows (Some ["owner"])
           {[ "status" := VStr "pending" ]} _ "b" _ eq_refl Hunique eq_refl Hin).
Defined.

(** X12.  More predicates, fewer rows.  On a connected store, when the
    predicates of one query include those of another, what the first
    yields is a subsequence of what the second yields. *)
Theorem query_narrows self rows selection (kwargs kwargs' : gmap string pyval) :
  table_rows self = Some rows →
  kwargs ⊆ kwargs' →
  ∃ wide narrow,
    outcome (query selection kwargs self) = Return wide
    ∧ outcome (query selection kwargs' self) = Return narrow
    ∧ narrow `sublist_of` wide.
Proof.
  intros Hrows Hsub.
  pose proof (execute_select_rows _ _ Hrows) as He.
  destruct (reads_return self rows "" selection kwargs He) as (_ & _ & _ & Hq).
  destruct (reads_return self rows "" selection kwargs' He) as (_ & _ & _ & Hq').
  exists (query_result selection kwargs rows), (query_result selection kwargs' rows).
  rewrite Hq, Hq'. split; [done|]. split; [done|].
  unfold query_result. apply fmap_sublist. clear Hrows He Hq Hq'.
  induction rows as [|r rows IH]; [done|].
  rewrite !filter_cons.
  destruct (decide (satisfies kwargs' (col_metadata r))) as [Hsat'|Hsat'];
    destruct (decide (satisfies kwargs (col_metadata r))) as [Hsat|Hsat].
  - by apply sublist_skip.
  - exfalso. apply Hsat. intros field value Hk.
    apply Hsat'. by eapply lookup_weaken.
  - by apply sublist_cons.
  - exact IH.
Qed.

Lemma query_narrows_witness :
  ∃ wide narrow,
    outcome (query None {[ "status" := VStr "pending" ]} Table.connected) = Return wide
    ∧ outcome (query None {[ "status" := VStr "pending"; "owner" := VStr "bob" ]}
                 Table.connected) = Return narrow
    ∧ narrow `sublist_of` wide.
Proof.
  apply (query_narrows Table.connected Table.rows None
           {[ "status" := VStr "pending" ]}
           {[ "status" := VStr "pending"; "owner" := VStr "bob" ]} eq_refl).
  apply map_singleton_subseteq_l. reflexivity.
Defined.

Lemma py_eq_none v : py_eq v VNone = true ↔ v = VNone.
Proof. destruct v; simpl; split; (done || discriminate). Qed.

(** X13.  A predicate whose value is [None] is met by the rows that lack
    the field, since a field that is not there reads as [None]; it is
    also met by the rows that hold [None] in it, and by no other row. *)
Theorem query_none_matches_missing_field self rows field result :
  table_rows self = Some rows →
  outcome (query None {[ field := VNone ]} self) = Return result →
  ∀ key metadata,
    (key, metadata) ∈ result
    ↔ ∃ r, r ∈ rows ∧ key = col_key r ∧ metadata = col_metadata r
           ∧ (col_metadata r !! field = None ∨ col_metadata r !! field = Some VNone).
Proof.
  intros Hrows Hquery key metadata.
  pose proof (execute_select_rows _ _ Hrows) as He.
  destruct (reads_return self rows key None {[ field := VNone ]} He) as (_ & _ & _ & Hq).
  rewrite Hq in Hquery. injection Hquery as <-.
  rewrite query_result_elem.
  assert (Hsat : ∀ md : gmap string pyval,
            satisfies {[ field := VNone ]} md ↔ md !! field = None ∨ md !! field = Some VNone).
  { intros md. unfold satisfies. rewrite map_Forall_singleton, py_eq_none.
    unfold metadata_get. destruct (md !! field) as [v|]; simpl.
    - split; [intros ->; by right | by intros [?|[= ->]]].
    - split; [by left | done]. }
  split.
  - intros (r & Hin & Hs & -> & ->). exists r. by rewrite <- Hsat.
  - intros (r & Hin & -> & -> & Hs). exists r. by rewrite Hsat.
Qed.

Lemma query_none_matches_missing_field_witness :
  ("a", Examples.meta_done)
  ∈ [("a", Examples.meta_done); ("c", ({[ "owner" := VNone ]} : gmap string pyval))].
Proof.
  apply (query_none_matches_missing_field Table.connected Table.rows "owner" _
           eq_refl eq_refl "a" Examples.meta_done).
  exists (Row "a" Examples.meta_done [Byte.x01]).
  split; [left|]. split; [reflexivity|]. split; [reflexivity|]. left. reflexivity.
Defined.

(** X14.  A selection counts as a set of names: the order of the names and
    their repetition make no difference to what [get_metadata] and [query]
    give, in every state of the store. *)
Theorem selection_is_a_set self key kwargs (fields fields' : list string) :
  (∀ field, field ∈ fields ↔ field ∈ fields') →
  get_metadata key (Some fields) self = get_metadata key (Some fields') self
  ∧ query (Some fields) kwargs self = query (Some fields') kwargs self.
Proof.
  intros Hsame.
  assert (Hreq : ∀ md : gmap string pyval,
            requested (Some fields) md = requested (Some fields') md).
  { intros md. apply map_eq. intros field. rewrite !requested_lookup.
    destruct (decide (field ∈ fields)) as [Hin|Hin];
      destruct (decide (field ∈ fields')) as [Hin'|Hin']; try done.
    - exfalso. apply Hin'. by apply Hsame.
    - exfalso. apply Hin. by apply Hsame. }
  destruct (execute_select_cases self) as [(rows & _ & He)|(_ & e & He)].
  - destruct (reads_return self rows key (Some fields) kwargs He) as (_ & _ & Hm & Hq).
    destruct (reads_return self rows key (Some fields') kwargs He) as (_ & _ & Hm' & Hq').
    rewrite Hm, Hm', Hq, Hq'. split.
    + destruct (stored key rows); [by rewrite Hreq | done].
    + f_equal. f_equal. unfold query_result. apply list_fmap_ext.
      intros _ r _. by rewrite Hreq.
  - destruct (reads_raise self e key (Some fields) kwargs He) as (_ & _ & Hm & Hq).
    destruct (reads_raise self e key (Some fields') kwargs He) as (_ & _ & Hm' & Hq').
    by rewrite Hm, Hm', Hq, Hq'.
Qed.

Lemma selection_is_a_set_witness :
  get_metadata "b" (Some ["owner"; "status"; "owner"]) Table.connected
  = get_metadata "b" (Some ["status"; "owner"]) Table.connected.
Proof.
  apply (selection_is_a_set Table.connected "b" ∅).
  intros field. rewrite !elem_of_cons, !elem_of_nil. tauto.
Defined.

(** ** Writing metadata *)

(** X15.  [set_metadata] never returns and never emits an event, and it
    leaves the table alone.  On an object without the attribute
    [_metadata] it raises [AttributeError] and changes nothing.  On an
    object that has it, the new dictionary replaces whatever was held for
    the key, and the method then raises [NameError] for the event it names,
    the update event when the key was held and the set event when not:
    the assignment is not undone. *)
Theorem set_metadata_stores_then_raises self key metadata :
  raises (outcome (set_metadata key metadata self))
  ∧ event_manager (final (set_metadata key metadata self)) = event_manager self
  ∧ backing (final (set_metadata key metadata self)) = backing self
  ∧ (_metadata self = None →
     set_metadata key metadata self
     = (Raise (no_attribute "SqliteStore" "_metadata"), self))
  ∧ (∀ m, _metadata self = Some m →
     set_metadata key metadata self
     = (Raise (unbound (if bool_decide (is_Some (m !! key))
                        then "StoreUpdateEvent" else "StoreSetEvent")),
        set_metadata_attr (<[key := metadata]> m) self)
     ∧ ∀ key', _metadata (final (set_metadata key metadata self)) ≫= (.!! key')
               = if decide (key = key') then Some metadata else m !! key').
Proof.
  unfold set_metadata, getattr_metadata, self_, gets, modify, bind, raises, outcome, final.
  simpl. destruct (_metadata self) as [m|] eqn:Hm; simpl.
  - destruct (bool_decide (is_Some (m !! key))) eqn:Hheld; simpl.
    + split; [by eexists|]. split; [done|]. split; [done|]. split; [done|].
      intros m' [= <-]. rewrite Hheld. split; [done|].
      intros key'. simpl. apply lookup_insert.
    + split; [by eexists|]. split; [done|]. split; [done|]. split; [done|].
      intros m' [= <-]. rewrite Hheld. split; [done|].
      intros key'. simpl. apply lookup_insert.
  - split; [by eexists|]. split; [done|]. split; [done|]. split; [by destruct self|].
    done.
Qed.

Lemma set_metadata_stores_then_raises_witness :
  set_metadata "a" Examples.meta_pending Examples.holding
  = (Raise (unbound "StoreUpdateEvent"),
     set_metadata_attr {[ "a" := Examples.meta_pending ]} Examples.holding)
  ∧ set_metadata "a" Examples.meta_pending Examples.connected
    = (Raise (no_attribute "SqliteStore" "_metadata"), Examples.connected).
Proof.
  pose proof (set_metadata_stores_then_raises Examples.holding "a" Examples.meta_pending)
    as (_ & _ & _ & _ & Hheld).
  pose proof (set_metadata_stores_then_raises Examples.connected "a" Examples.meta_pending)
    as (_ & _ & _ & Hnone & _).
  split.
  - destruct (Hheld {[ "a" := Examples.meta_done ]} eq_refl) as [Hset _].
    rewrite Hset. f_equal.
  - exact (Hnone eq_refl).
Defined.

(** X16.  [update_metadata] never returns and never emits an event, and it
    leaves the table alone.  For a key the attribute [_metadata] does not
    hold it raises [KeyError] and changes nothing.  For a key it holds,
    the fields given overwrite those held, the fields not mentioned stay,
    and the method then raises [NameError]: the merge is not undone. *)
Theorem update_metadata_merges_then_raises self key metadata :
  raises (outcome (update_metadata key metadata self))
  ∧ event_manager (final (update_metadata key metadata self)) = event_manager self
  ∧ backing (final (update_metadata key metadata self)) = backing self
  ∧ (∀ m, _metadata self = Some m → m !! key = None →
     update_metadata key metadata self = (Raise (KeyError key), self))
  ∧ (∀ m old, _metadata self = Some m → m !! key = Some old →
     let merged := metadata ∪ old in
     update_metadata key metadata self
     = (Raise (unbound "StoreUpdateEvent"),
        set_metadata_attr (<[key := merged]> m) self)
     ∧ ∀ field, merged !! field
                = match metadata !! field with
                  | Some value => Some value
                  | None => old !! field
                  end).
Proof.
  unfold update_metadata, getattr_metadata, self_, gets, modify, bind, raises, outcome,
    final.
  simpl. destruct (_metadata self) as [m|] eqn:Hm; simpl.
  - destruct (m !! key) as [old|] eqn:Hk; simpl.
    + split; [by eexists|]. split; [done|]. split; [done|]. split.
      * intros m' [= <-]. congruence.
      * intros m' old' [= <-] Hold. rewrite Hk in Hold. injection Hold as <-.
        split; [done|].
        intros field. rewrite lookup_union.
        destruct (metadata !! field), (old !! field); done.
    + split; [by eexists|]. split; [done|]. split; [done|]. split.
      * intros m' [= <-] _. by destruct self.
      * intros m' old' [= <-] Hold. congruence.
  - split; [by eexists|]. split; [done|]. split; [done|]. split; [done|]. done.
Qed.

Lemma update_metadata_merges_then_raises_witness :
  update_metadata "a" {[ "owner" := VStr "ann" ]} Examples.holding
  = (Raise (unbound "StoreUpdateEvent"),
     set_metadata_attr
       {[ "a" := {[ "owner" := VStr "ann"; "status" := VStr "done" ]} ]} Examples.holding)
  ∧ update_metadata "zz" ∅ Examples.holding = (Raise (KeyError "zz"), Examples.holding).
Proof.
  pose proof (update_metadata_merges_then_raises Examples.holding "a"
                {[ "owner" := VStr "ann" ]}) as (_ & _ & _ & _ & Hheld).
  pose proof (update_metadata_merges_then_raises Examples.holding "zz" ∅)
    as (_ & _ & _ & Hnone & _).
  split.
  - destruct (Hheld {[ "a" := Examples.meta_done ]} Examples.meta_done eq_refl eq_refl)
      as (Hupdate & _).
    rewrite Hupdate. vm_compute. reflexivity.
  - exact (Hnone {[ "a" := Examples.meta_done ]} eq_refl eq_refl).
Defined.

End StoreMore.
